(** * loaden: configuration loading with includes

    A shallow embedding of [src/loaden/config.py]: the recursive merger
    [deep_merge], the loader [load_config] with its include stack and its
    root-only post-processing, and the validator [_validate_required_keys],
    followed by the properties of the natural-language specification. *)

From stdpp Require Import gmap strings pretty list fin_maps.
From Stdlib Require Import Ascii String ZArith Lia.

Open Scope string_scope.
Set Warnings "-register-all".

(** ** Documents

    The value tree produced by [yaml.safe_load].  A Python [dict] whose keys
    are strings is a finite map: equality of dicts ignores insertion order
    and a key occurs at most once.  A float is kept as its 64-bit pattern;
    neither the merger nor the loader ever looks inside a number. *)

Inductive yvalue : Type :=
  | VNull
  | VBool (b : bool)
  | VInt (n : Z)
  | VFloat (bits : Z)
  | VStr (s : string)
  | VList (items : list yvalue)
  | VDict (d : gmap string yvalue).

(** [isinstance(v, dict)] *)
Definition is_dict (v : yvalue) : bool :=
  match v with VDict _ => true | _ => false end.

(** [type(v).__name__] *)
Definition type_name (v : yvalue) : string :=
  match v with
  | VNull => "NoneType"
  | VBool _ => "bool"
  | VInt _ => "int"
  | VFloat _ => "float"
  | VStr _ => "str"
  | VList _ => "list"
  | VDict _ => "dict"
  end.

(** ** The merger

    [result = base.copy()], then one assignment [result[key] = ...] per item
    of [overlay].  The recursion descends into the overlay's value, so the
    fixpoint is taken on a [yvalue]; [deep_merge] below is its restriction to
    two mappings. *)

Fixpoint merge_into (base : gmap string yvalue) (overlay : yvalue) {struct overlay}
  : gmap string yvalue :=
  match overlay with
  | VDict items =>
      map_fold
        (fun key value result =>
           match result !! key, value with
           | Some (VDict sub), VDict _ => <[key := VDict (merge_into sub value)]> result
           | _, _ => <[key := value]> result
           end)
        base items
  | _ => base
  end.

Definition deep_merge (base overlay : gmap string yvalue) : gmap string yvalue :=
  merge_into base (VDict overlay).

(** The loop body of [deep_merge], one overlay item at a time. *)
Definition merge_item (key : string) (value : yvalue) (result : gmap string yvalue)
  : gmap string yvalue :=
  match result !! key, value with
  | Some (VDict sub), VDict over => <[key := VDict (deep_merge sub over)]> result
  | _, _ => <[key := value]> result
  end.

(** What the spec's contract says the merged value under one key is. *)
Definition merged_entry (b o : option yvalue) : option yvalue :=
  match o with
  | None => b
  | Some (VDict over) =>
      match b with
      | Some (VDict sub) => Some (VDict (deep_merge sub over))
      | _ => Some (VDict over)
      end
  | Some v => Some v
  end.

(** Walking a document along a list of keys. *)
Fixpoint lookup_path (v : yvalue) (path : list string) : option yvalue :=
  match path with
  | [] => Some v
  | key :: rest =>
      match v with
      | VDict d => match d !! key with
                   | Some w => lookup_path w rest
                   | None => None
                   end
      | _ => None
      end
  end.

(** ** Errors and outcomes

    One constructor per exception the loader can raise; the carried data is
    what the message is formatted from. *)

Inductive error : Type :=
  | NotFound (config_path : string)                       (* FileNotFoundError *)
  | OpenFailed (config_path : string)                     (* OSError from [open] *)
  | ParseError (config_path : string)                     (* yaml.YAMLError *)
  | InvalidShape (config_path : string) (found : string)  (* ValueError *)
  | CircularInclude (chain : list string)                 (* ValueError *)
  | BadIncludes                                           (* TypeError *)
  | EnvNotMapping                                         (* AttributeError *)
  | MissingRequiredKeys (config_path : string) (missing : list string). (* ValueError *)

Inductive outcome (A : Type) : Type :=
  | Return (a : A)
  | Raise (e : error).
Arguments Return {A} a.
Arguments Raise {A} e.

(** [sep.join(parts)] *)
Fixpoint join (sep : string) (parts : list string) : string :=
  match parts with
  | [] => ""
  | [p] => p
  | p :: rest => p ++ sep ++ join sep rest
  end.

(** The text of the exceptions that the loader formats itself, as the
    f-strings build it; the others come with the text of their library. *)
Definition message (e : error) : option string :=
  match e with
  | NotFound config_path =>
      Some ("Config file not found: " ++ config_path ++ String "010"%char
            "Please create a config.yaml file or specify path with --config")
  | InvalidShape config_path found =>
      Some ("Invalid config file: " ++ config_path ++ String "010"%char
            ("Config must be a YAML dictionary, got " ++ found))
  | CircularInclude chain => Some ("Circular include detected: " ++ join " -> " chain)
  | MissingRequiredKeys config_path missing =>
      Some ("Invalid config: missing required keys in " ++ config_path ++ ": "
            ++ join ", " missing)
  | OpenFailed _ | ParseError _ | BadIncludes | EnvNotMapping => None
  end.

(** ** The required-key validator *)

(** [key_path.split(sep)]: never empty, an empty string gives one empty part. *)
Fixpoint split_on (sep : ascii) (s : string) : list string :=
  match s with
  | EmptyString => [EmptyString]
  | String c rest =>
      if Ascii.eqb c sep then EmptyString :: split_on sep rest
      else match split_on sep rest with
           | [] => [String c EmptyString]
           | part :: parts => String c part :: parts
           end
  end.

(** The inner loop [for part in parts]: [true] when it reaches the [break],
    that is when [key_path] is appended to [missing]. *)
Fixpoint path_breaks (current : yvalue) (parts : list string) : bool :=
  match parts with
  | [] => false
  | part :: rest =>
      match current with
      | VDict d =>
          match d !! part with
          | Some next => path_breaks next rest
          | None => true
          end
      | _ => true
      end
  end.

(** The outer loop, with [missing] as its accumulator. *)
Definition collect_missing (config : gmap string yvalue) (required_keys : list string)
  : list string :=
  foldl (fun missing key_path =>
           if path_breaks (VDict config) (split_on "."%char key_path)
           then (missing ++ [key_path])%list else missing)
        [] required_keys.

Definition _validate_required_keys (config : gmap string yvalue)
    (required_keys : list string) (config_path : string) : outcome unit :=
  match collect_missing config required_keys with
  | [] => Return tt
  | missing => Raise (MissingRequiredKeys config_path missing)
  end.

(** The spec's wording of a failing path: at some segment the value reached
    so far is not a mapping, or it is a mapping without that segment. *)
Definition missing_at (config : gmap string yvalue) (parts : list string) : Prop :=
  exists walked part rest current,
    parts = (walked ++ part :: rest)%list /\
    lookup_path (VDict config) walked = Some current /\
    match current with
    | VDict d => d !! part = None
    | _ => True
    end.

(** The document [v] with the value at the end of [path] replaced by [w];
    [v] itself when the walk along [path] does not succeed. *)
Fixpoint set_path (v : yvalue) (path : list string) (w : yvalue) : yvalue :=
  match path with
  | [] => w
  | key :: rest =>
      match v with
      | VDict d =>
          match d !! key with
          | Some next => VDict (<[key := set_path next rest w]> d)
          | None => v
          end
      | _ => v
      end
  end.

(** ** The world of the loader

    What the loader's collaborators answer: [pathlib] for paths, [open] and
    [yaml.safe_load] for content.  A file is identified by its canonical
    path, and there are finitely many of them. *)

Inductive file_read : Type :=
  | Unreadable               (* [open] raises *)
  | Malformed                (* [yaml.safe_load] raises *)
  | Parsed (v : yvalue).     (* [VNull] for an empty file *)

Record filesystem : Type := {
  resolve : string -> string;                (* [str(Path(p).resolve())] *)
  parent_join : string -> string -> string;  (* [str(Path(p).parent / q)] *)
  files : gmap string file_read;             (* content, by canonical path *)
}.

(** [Path(p).exists()] *)
Definition path_exists (fs : filesystem) (p : string) : bool :=
  bool_decide (is_Some (files fs !! resolve fs p)).

(** ** Computations of the loader

    The loader reads and writes [os.environ], raises, and recurses on the
    content of files; a computation takes the environment and yields the
    environment and an outcome, or nothing when the recursion budget of the
    model is used up. *)

Definition exec (A : Type) : Type :=
  gmap string string -> option (gmap string string * outcome A).

Definition raise {A} (e : error) : exec A :=
  fun environ => Some (environ, Raise e).

Definition exhausted {A} : exec A := fun _ => None.

Definition lift {A} (o : outcome A) : exec A :=
  fun environ => Some (environ, o).

#[global] Instance exec_ret : MRet exec :=
  fun A a environ => Some (environ, Return a).

#[global] Instance exec_bind : MBind exec :=
  fun A B k c environ =>
    match c environ with
    | None => None
    | Some (environ', Raise e) => Some (environ', Raise e)
    | Some (environ', Return a) => k a environ'
    end.

Definition include_key : string := "loaden_include".
Definition env_key : string := "env".

(** [list.remove(x)]: drops the first occurrence. *)
Fixpoint list_remove (x : string) (l : list string) : list string :=
  match l with
  | [] => []
  | y :: rest => if decide (x = y) then rest else y :: list_remove x rest
  end.

(** What [for include_path in includes] iterates over, after a bare string
    has been wrapped in a list.  Iterating a mapping yields its keys (in
    the order of the map here, Python goes by insertion order); the other
    values are not iterable. *)
Definition include_items (includes : yvalue) : option (list yvalue) :=
  match includes with
  | VStr s => Some [VStr s]
  | VList items => Some items
  | VDict d => Some (VStr <$> (map_to_list d).*1)
  | _ => None
  end.

(** The body of the [for include_path in includes] loop, [load] standing for
    the recursive call on the joined path. *)
Fixpoint include_loop (load : string -> exec (gmap string yvalue))
    (includes : list yvalue) (base_config : gmap string yvalue)
  : exec (gmap string yvalue) :=
  match includes with
  | [] => mret base_config
  | VStr include_path :: rest =>
      included ← load include_path;
      include_loop load rest (deep_merge base_config included)
  | _ :: _ => raise BadIncludes
  end.

(** [with open(path) as f: config = yaml.safe_load(f)] and the two checks
    that follow it. *)
Definition read_config (fs : filesystem) (config_path : string)
  : outcome (gmap string yvalue) :=
  match files fs !! resolve fs config_path with
  | None | Some Unreadable => Raise (OpenFailed config_path)
  | Some Malformed => Raise (ParseError config_path)
  | Some (Parsed VNull) => Return ∅
  | Some (Parsed (VDict config)) => Return config
  | Some (Parsed v) => Raise (InvalidShape config_path (type_name v))
  end.

Section Loader.
(** Python's builtin [str], applied to the values of the [env] section. *)
Variable py_str : yvalue -> string.
Variable fs : filesystem.

(** [for key, value in config["env"].items()] *)
Definition seed_environ (section : gmap string yvalue)
    (environ : gmap string string) : gmap string string :=
  map_fold
    (fun key value environ =>
       if decide (is_Some (environ !! key)) then environ
       else <[key := py_str value]> environ)
    environ section.

(** The [if is_root_call:] block. *)
Definition root_post (config_path : string) (required_keys : option (list string))
    (config : gmap string yvalue) : exec (gmap string yvalue) :=
  fun environ =>
    match
      match config !! env_key with
      | None => Some environ
      | Some (VDict section) => Some (seed_environ section environ)
      | Some _ => None
      end
    with
    | None => Some (environ, Raise EnvNotMapping)
    | Some environ' =>
        match required_keys with
        | None | Some [] => Some (environ', Return config)
        | Some keys =>
            match _validate_required_keys config keys config_path with
            | Return _ => Some (environ', Return config)
            | Raise e => Some (environ', Raise e)
            end
        end
    end.

(** The [try] block: read the file, resolve its includes, merge. *)
Definition try_block (load : string -> exec (gmap string yvalue))
    (config_path : string) : exec (gmap string yvalue) :=
  config ← lift (read_config fs config_path);
  match config !! include_key with
  | Some includes =>
      let config := delete include_key config in
      match include_items includes with
      | Some includes =>
          base_config ← include_loop
                          (fun include_path => load (parent_join fs config_path include_path))
                          includes ∅;
          mret (deep_merge base_config config)
      | None => raise BadIncludes
      end
  | None => mret config
  end.

(** The loader.  [_include_stack] is the content of the list the call is
    given; [append] and [remove] act on it as [stack1] and [stack2].  A
    nested call is given [_include_stack.copy()], a list of its own, so
    what it appends and removes is not seen here and every nested call is
    entered with [stack1].  An exception of the [try] block leaves through
    [finally] and is raised again: the root-only block is not reached.
    [fuel] bounds the depth of nested calls. *)
Fixpoint load_config (fuel : nat) (config_path : string)
    (required_keys : option (list string)) (_include_stack : option (list string))
  : exec (gmap string yvalue) :=
  match fuel with
  | O => exhausted
  | S fuel' =>
      if negb (path_exists fs config_path) then raise (NotFound config_path) else
      let stack0 := default [] _include_stack in
      let resolved_path := resolve fs config_path in
      if bool_decide (resolved_path ∈ stack0)
      then raise (CircularInclude (stack0 ++ [resolved_path])%list) else
      let stack1 := (stack0 ++ [resolved_path])%list in
      config ← try_block
                 (fun include_full => load_config fuel' include_full None (Some stack1))
                 config_path;
      let stack2 := if bool_decide (resolved_path ∈ stack1)
                    then list_remove resolved_path stack1 else stack1 in
      let is_root_call := bool_decide (List.length stack2 = 0) in
      if is_root_call then root_post config_path required_keys config
      else mret config
  end.

(** A call from outside: no stack, and a budget of one call per file plus
    one, which no chain of includes exceeds. *)
Definition load (config_path : string) (required_keys : option (list string))
  : exec (gmap string yvalue) :=
  load_config (S (size (files fs))) config_path required_keys None.
End Loader.

(** ** The include graph

    What the file at [p] lists under its include directive, when it can be
    read as a mapping and the directive can be iterated; the empty list for
    a file without the directive. *)

Definition includes_of (fs : filesystem) (p : string) : option (list yvalue) :=
  match read_config fs p with
  | Return config =>
      match config !! include_key with
      | Some includes => include_items includes
      | None => Some []
      end
  | Raise _ => None
  end.

(** The file's own keys: its document without the directive. *)
Definition own_keys (fs : filesystem) (p : string) : gmap string yvalue :=
  match read_config fs p with
  | Return config => delete include_key config
  | Raise _ => ∅
  end.

(** [p] includes [q]: [q] is one of the listed paths, joined to the
    directory of [p]. *)
Definition edge (fs : filesystem) (p q : string) : Prop :=
  exists items s,
    includes_of fs p = Some items /\ VStr s ∈ items /\ q = parent_join fs p s.

(** [p] exists, is a mapping, and lists only paths. *)
Definition wf_node (fs : filesystem) (p : string) : Prop :=
  path_exists fs p = true /\
  exists names, includes_of fs p = Some (VStr <$> names).

(** [chain fs p qs]: from [p], each path of [qs] is included by the one
    before it. *)
Inductive chain (fs : filesystem) : string -> list string -> Prop :=
  | chain_nil p : chain fs p []
  | chain_cons p q qs : edge fs p q -> chain fs q qs -> chain fs p (q :: qs).

(** Every file reachable from [p] is well-formed. *)
Definition wf_from (fs : filesystem) (p : string) : Prop :=
  forall q, rtc (edge fs) p q -> wf_node fs q.

(** No include chain from [p] meets a canonical path twice, nor one of
    [stack]. *)
Definition acyclic_from (fs : filesystem) (stack : list string) (p : string) : Prop :=
  forall qs, chain fs p qs -> NoDup (stack ++ (resolve fs <$> p :: qs))%list.

(** What a nested call can answer. *)
Definition nested_ok (o : outcome (gmap string yvalue)) : Prop :=
  match o with
  | Return d => d !! include_key = None
  | Raise e => e <> EnvNotMapping /\ forall cp missing, e <> MissingRequiredKeys cp missing
  end.

(** What a call on [p] entered with [stack] answers when every file
    reachable from [p] is well-formed: a document, and then no chain from
    [p] closes a cycle and the keys of the document are the keys of the
    reachable files; or [CircularInclude] with the stack followed by an include
    chain from [p] whose last path is the first to repeat. *)
Definition verdict (fs : filesystem) (stack : list string) (p : string)
    (o : outcome (gmap string yvalue)) : Prop :=
  match o with
  | Return d =>
      acyclic_from fs stack p /\
      forall k, is_Some (d !! k) <->
                exists q, rtc (edge fs) p q /\ is_Some (own_keys fs q !! k)
  | Raise e =>
      exists qs before z,
        chain fs p qs /\
        p :: qs = (before ++ [z])%list /\
        e = CircularInclude (stack ++ (resolve fs <$> before) ++ [resolve fs z])%list /\
        NoDup (stack ++ (resolve fs <$> before))%list /\
        resolve fs z ∈ (stack ++ (resolve fs <$> before))%list
  end.


(** The names listed by an include directive all of whose items are
    strings. *)
Fixpoint names_of (items : list yvalue) : option (list string) :=
  match items with
  | [] => Some []
  | VStr s :: rest => cons s <$> names_of rest
  | _ :: _ => None
  end.

(** A depth-first check of the include graph below [p]: every file exists,
    reads as a mapping that lists only paths, and is not on its own
    ancestor chain. *)
Fixpoint dfs_ok (fs : filesystem) (depth : nat) (stack : list string) (p : string) : bool :=
  match depth with
  | O => false
  | S depth' =>
      path_exists fs p
      && bool_decide (resolve fs p ∉ stack)
      && match includes_of fs p ≫= names_of with
         | Some names =>
             forallb (fun s => dfs_ok fs depth' (stack ++ [resolve fs p])%list
                                      (parent_join fs p s))
                     names
         | None => false
         end
  end.



(** ** The merger on the heap

    Python dicts and lists are objects reached through references, and
    [result[key] = ...] writes into one.  Here a heap maps locations to
    objects, a value is a scalar or a reference, [base.copy()] allocates a
    fresh dict with the same entries, and an assignment updates the object
    at [result]. *)

Module Heap.

Inductive hvalue : Type :=
  | HNull
  | HBool (b : bool)
  | HInt (n : Z)
  | HFloat (bits : Z)
  | HStr (s : string)
  | HRef (l : nat).

Inductive object : Type :=
  | ODict (entries : gmap string hvalue)
  | OList (items : list hvalue).

(** [isinstance(v, dict)], giving the location of the dict. *)
Definition dict_at (h : gmap nat object) (v : hvalue) : option nat :=
  match v with
  | HRef l => match h !! l with
              | Some (ODict _) => Some l
              | _ => None
              end
  | _ => None
  end.

(** [result[key] = value] *)
Definition setitem (result : nat) (key : string) (value : hvalue)
    (h : gmap nat object) : gmap nat object :=
  alter (fun o => match o with
                  | ODict entries => ODict (<[key := value]> entries)
                  | OList _ => o
                  end)
        result h.

(** The body of the loop, [rec] standing for the recursive call. *)
Definition merge_item
    (rec : gmap nat object -> nat -> nat -> option (gmap nat object * nat))
    (result : nat) (key : string) (value : hvalue) (h : gmap nat object)
  : option (gmap nat object) :=
  match h !! result with
  | Some (ODict entries) =>
      match entries !! key ≫= dict_at h, dict_at h value with
      | Some sub, Some over =>
          match rec h sub over with
          | Some (h', merged) => Some (setitem result key (HRef merged) h')
          | None => None
          end
      | _, _ => Some (setitem result key value h)
      end
  | _ => None
  end.

(** [deep_merge(base, overlay)] on two locations: the heap after the call
    and the location of the new dict.  [None] when the budget of nested
    calls is used up or an argument is not a dict. *)
Fixpoint deep_merge (fuel : nat) (h : gmap nat object) (base overlay : nat)
  : option (gmap nat object * nat) :=
  match fuel with
  | O => None
  | S fuel' =>
      match h !! base, h !! overlay with
      | Some (ODict base_entries), Some (ODict overlay_entries) =>
          let result := fresh (dom h) in
          match
            map_fold
              (fun key value acc => acc ≫= merge_item (deep_merge fuel') result key value)
              (Some (<[result := ODict base_entries]> h))
              overlay_entries
          with
          | Some h' => Some (h', result)
          | None => None
          end
      | _, _ => None
      end
  end.

(** The document that a value denotes in a heap, read to a given depth of
    references; [None] for a dangling reference or a structure deeper than
    that. *)
Fixpoint snapshot (depth : nat) (h : gmap nat object) (v : hvalue) : option yvalue :=
  match v with
  | HNull => Some VNull
  | HBool b => Some (VBool b)
  | HInt n => Some (VInt n)
  | HFloat bits => Some (VFloat bits)
  | HStr s => Some (VStr s)
  | HRef l =>
      match depth with
      | O => None
      | S depth' =>
          match h !! l with
          | Some (ODict entries) =>
              let read := snapshot depth' h <$> entries in
              if bool_decide (map_Forall (fun _ o => is_Some o) read)
              then Some (VDict (omap id read)) else None
          | Some (OList items) => VList <$> mapM (snapshot depth' h) items
          | None => None
          end
      end
  end.

(** The entries of a dict object read as the mapping [M]. *)
Definition reads (depth : nat) (h : gmap nat object) (entries : gmap string hvalue)
    (M : gmap string yvalue) : Prop :=
  snapshot depth h <$> entries = Some <$> M.

(** The docstring's example, the two nested dicts being objects of their
    own. *)
Definition heap_example : gmap nat object :=
  {[ 0 := ODict {[ "a" := HInt 1; "b" := HRef 2 ]};
     1 := ODict {[ "b" := HRef 3; "e" := HInt 4 ]};
     2 := ODict {[ "c" := HInt 2 ]};
     3 := ODict {[ "d" := HInt 3 ]} ]}.

Definition heap_merged : gmap nat object :=
  {[ 0 := ODict {[ "a" := HInt 1; "b" := HRef 2 ]};
     1 := ODict {[ "b" := HRef 3; "e" := HInt 4 ]};
     2 := ODict {[ "c" := HInt 2 ]};
     3 := ODict {[ "d" := HInt 3 ]};
     4 := ODict {[ "a" := HInt 1; "b" := HRef 5; "e" := HInt 4 ]};
     5 := ODict {[ "c" := HInt 2; "d" := HInt 3 ]} ]}.

End Heap.

(** What a nested call must provide for the loop to compute the merge of
    the documents: [g] is the part of the heap that the documents are read
    from, [g'] the part that the result is read from. *)
Definition refines (depth : nat)
    (rec : gmap nat Heap.object -> nat -> nat -> option (gmap nat Heap.object * nat))
  : Prop :=
  forall (h g : gmap nat Heap.object) base overlay A B,
    g ⊆ h ->
    Heap.snapshot depth g (Heap.HRef base) = Some (VDict A) ->
    Heap.snapshot depth g (Heap.HRef overlay) = Some (VDict B) ->
    exists h' result g',
      rec h base overlay = Some (h', result) /\
      g ⊆ g' /\ g' ⊆ h' /\ h ⊆ h' /\
      (forall l, is_Some (g' !! l) -> is_Some (h !! l) -> is_Some (g !! l)) /\
      Heap.snapshot depth g' (Heap.HRef result) = Some (VDict (deep_merge A B)).

(** ** Measures and relations on documents *)

(** The number of mappings nested in a value through mappings; the measure
    along which the merger recurses. *)
Fixpoint nesting (v : yvalue) : nat :=
  match v with
  | VDict d => S (map_fold (fun _ w total => nesting w + total) 0 d)
  | _ => 0
  end.

(** [overlay] holds a mapping wherever [base] holds one and [overlay]
    defines the key, at every depth: no plain value of [overlay] takes the
    place of a mapping of [base]. *)
Inductive keeps_mappings : gmap string yvalue -> gmap string yvalue -> Prop :=
  | keeps_mappings_intro base overlay :
      (forall k sub v,
          base !! k = Some (VDict sub) -> overlay !! k = Some v ->
          exists over, v = VDict over /\ keeps_mappings sub over) ->
      keeps_mappings base overlay.

(** What the dict that [deep_merge] returns, at [result] in the heap [h']
    after the call, holds under a key, given what the two inputs held under
    it in the heap [h] before the call: the value of the base, the value of
    the overlay, or a reference to a dict that the call has made. *)
Definition result_entry (h h' : gmap nat Heap.object) (result : nat)
    (base_entry overlay_entry entry : option Heap.hvalue) : Prop :=
  match overlay_entry with
  | None => entry = base_entry
  | Some value =>
      match base_entry ≫= Heap.dict_at h, Heap.dict_at h value with
      | Some _, Some _ =>
          exists merged,
            entry = Some (Heap.HRef merged) /\ merged <> result /\
            h !! merged = None /\
            exists entries, h' !! merged = Some (Heap.ODict entries)
      | _, _ => entry = Some value
      end
  end.

(** ** Example worlds

    One directory [/cfg]; a relative path names a file of that directory. *)

Definition cfg_dir (m : gmap string file_read) : filesystem :=
  {| resolve := fun p => "/cfg/" ++ p;
     parent_join := fun _ include_path => include_path;
     files := m |}.

(** [str] on the scalars whose text is plain: a string as it is, an integer
    in decimal, [True], [False] and [None]; the text of a float or of a
    compound value is left out. *)
Definition str_of (v : yvalue) : string :=
  match v with
  | VStr s => s
  | VInt n => pretty n
  | VBool true => "True"
  | VBool false => "False"
  | VNull => "None"
  | _ => ""
  end.

(** The spec's multi-include example. *)
Definition fs_multi : filesystem :=
  cfg_dir {[
    "/cfg/first.yaml" := Parsed (VDict {[ "b" := VStr "first"; "a" := VInt 1 ]});
    "/cfg/second.yaml" := Parsed (VDict {[ "b" := VStr "second"; "c" := VInt 3 ]});
    "/cfg/main.yaml" :=
      Parsed (VDict {[ include_key := VList [VStr "first.yaml"; VStr "second.yaml"];
                       "d" := VInt 4 ]})
  ]}.

(** A -> B -> C -> A *)
Definition fs_cycle : filesystem :=
  cfg_dir {[
    "/cfg/a.yaml" := Parsed (VDict {[ include_key := VStr "b.yaml"; "a" := VInt 1 ]});
    "/cfg/b.yaml" := Parsed (VDict {[ include_key := VStr "c.yaml"; "b" := VInt 2 ]});
    "/cfg/c.yaml" := Parsed (VDict {[ include_key := VStr "a.yaml"; "c" := VInt 3 ]})
  ]}.

(** main -> left -> shared, main -> right -> shared *)
Definition fs_diamond : filesystem :=
  cfg_dir {[
    "/cfg/shared.yaml" := Parsed (VDict {[ "shared" := VStr "value" ]});
    "/cfg/left.yaml" :=
      Parsed (VDict {[ include_key := VStr "shared.yaml"; "left" := VStr "value" ]});
    "/cfg/right.yaml" :=
      Parsed (VDict {[ include_key := VStr "shared.yaml"; "right" := VStr "value" ]});
    "/cfg/main.yaml" :=
      Parsed (VDict {[ include_key := VList [VStr "left.yaml"; VStr "right.yaml"];
                       "main" := VStr "value" ]})
  ]}.








(** The test's document for a path through a value that is not a mapping. *)
Definition doc_required : gmap string yvalue :=
  {[ "database" := VStr "not_a_dict"; "api" := VDict {[ "key" := VNull ]} ]}.


Definition doc_diamond : gmap string yvalue :=
  {[ "shared" := VStr "value"; "left" := VStr "value";
     "right" := VStr "value"; "main" := VStr "value" ]}.


(** A file without content. *)
Definition fs_empty : filesystem :=
  cfg_dir {[ "/cfg/empty.yaml" := Parsed VNull ]}.

(** ** Properties of the merger *)

Lemma map_fold_pointwise {A B} (f g : string -> A -> B -> B) (b : B) (m : gmap string A) :
  (forall k x r, f k x r = g k x r) -> map_fold f b m = map_fold g b m.
Proof.
  intros Hfg. rewrite !map_fold_foldr.
  induction (map_to_list m) as [|[k x] l IH]; simpl; [done|].
  by rewrite IH, Hfg.
Qed.

Lemma deep_merge_unfold (base overlay : gmap string yvalue) :
  deep_merge base overlay = map_fold merge_item base overlay.
Proof.
  unfold deep_merge. simpl. apply map_fold_pointwise.
  intros k x r. unfold merge_item.
  destruct (r !! k) as [[]|]; destruct x; reflexivity.
Qed.

Lemma merge_item_lookup key value (result : gmap string yvalue) k :
  merge_item key value result !! k =
    if decide (key = k) then merged_entry (result !! key) (Some value)
    else result !! k.
Proof.
  unfold merge_item.
  destruct (result !! key) as [[]|] eqn:Hr; destruct value;
    rewrite lookup_insert; case_decide; simpl; try rewrite Hr; done.
Qed.

Lemma deep_merge_lookup (base overlay : gmap string yvalue) k :
  deep_merge base overlay !! k = merged_entry (base !! k) (overlay !! k).
Proof.
  rewrite deep_merge_unfold. revert k.
  apply (map_fold_weak_ind
           (fun result m => forall k, result !! k = merged_entry (base !! k) (m !! k))).
  - intros k. by rewrite lookup_empty.
  - intros i x m r Hi IH k. rewrite merge_item_lookup, lookup_insert.
    case_decide as Hk.
    + subst k. rewrite IH, Hi. done.
    + apply IH.
Qed.

Lemma merged_entry_is_Some b o :
  is_Some (merged_entry b o) <-> is_Some b \/ is_Some o.
Proof.
  unfold merged_entry. destruct o as [[]|]; destruct b as [[]|];
    split; intros; eauto; destruct_or?; eauto;
    match goal with H : is_Some None |- _ => by destruct H end.
Qed.

Lemma deep_merge_dom (base overlay : gmap string yvalue) :
  dom (deep_merge base overlay) = dom base ∪ dom overlay.
Proof.
  apply set_eq. intros k.
  rewrite elem_of_union, !elem_of_dom, deep_merge_lookup.
  apply merged_entry_is_Some.
Qed.

Lemma deep_merge_empty_r (X : gmap string yvalue) : deep_merge X ∅ = X.
Proof. apply map_eq. intros k. by rewrite deep_merge_lookup, lookup_empty. Qed.

Lemma deep_merge_empty_l (X : gmap string yvalue) : deep_merge ∅ X = X.
Proof.
  apply map_eq. intros k. rewrite deep_merge_lookup, lookup_empty.
  by destruct (X !! k) as [[]|].
Qed.

Lemma deep_merge_lookup_None (base overlay : gmap string yvalue) k :
  base !! k = None -> overlay !! k = None -> deep_merge base overlay !! k = None.
Proof. intros Hb Ho. by rewrite deep_merge_lookup, Hb, Ho. Qed.

Lemma merged_entry_None_l (o : option yvalue) : merged_entry None o = o.
Proof. by destruct o as [[]|]. Qed.

Lemma merged_entry_plain b v :
  is_dict v = false -> merged_entry b (Some v) = Some v.
Proof. by destruct v. Qed.

Lemma merged_entry_over_plain b v :
  (forall sub, b <> Some (VDict sub)) -> merged_entry b (Some v) = Some v.
Proof.
  intros Hb. destruct v; try done. destruct b as [[]|]; try done.
  by edestruct Hb.
Qed.

(** The value found along a path of the overlay is found along the same
    path of the merge, merged over what the base holds there. *)
Lemma deep_merge_lookup_path (base overlay : gmap string yvalue) path v :
  lookup_path (VDict overlay) path = Some v ->
  lookup_path (VDict (deep_merge base overlay)) path =
    merged_entry (lookup_path (VDict base) path) (Some v).
Proof.
  revert base overlay v. induction path as [|k rest IH]; intros base overlay v Hv.
  - cbn in Hv. inversion Hv; subst. reflexivity.
  - cbn [lookup_path] in *. rewrite deep_merge_lookup.
    destruct (overlay !! k) as [w|] eqn:Hk; [|done].
    destruct (is_dict w) eqn:Hw.
    + destruct w as [| | | | | |over]; try done.
      destruct (base !! k) as [x|] eqn:Hb.
      * destruct (is_dict x) eqn:Hx.
        -- destruct x as [| | | | | |sub]; try done.
           cbn [merged_entry]. by apply IH.
        -- rewrite merged_entry_over_plain by (by intros sub [= ->]).
           rewrite Hv. destruct rest as [|k' rest'].
           ++ cbn in Hv. inversion Hv; subst.
              by rewrite merged_entry_over_plain by (by intros sub [= ->]).
           ++ destruct x; try done; cbn [lookup_path]; by rewrite merged_entry_None_l.
      * rewrite !merged_entry_None_l. by rewrite Hv.
    + rewrite (merged_entry_plain _ w Hw).
      destruct rest as [|k' rest']; [|by destruct w].
      cbn in Hv. inversion Hv; subst. cbn [lookup_path].
      destruct (base !! k); by rewrite merged_entry_plain.
Qed.

(** C4: [deep_merge] holds every key of both inputs; under a key of both
    whose two values are mappings it holds their recursive merge; under any
    other key of the overlay it holds the overlay's value as it is, a null
    included; a key of the base alone keeps the base's value.  The merger
    is a total function: it has no error outcome. *)
Theorem deep_merge_contract (base overlay : gmap string yvalue) :
  dom (deep_merge base overlay) = dom base ∪ dom overlay /\
  (forall k, overlay !! k = None -> deep_merge base overlay !! k = base !! k) /\
  (forall k sub over,
      base !! k = Some (VDict sub) -> overlay !! k = Some (VDict over) ->
      deep_merge base overlay !! k = Some (VDict (deep_merge sub over))) /\
  (forall k v,
      overlay !! k = Some v ->
      is_dict v = false \/ (forall sub, base !! k <> Some (VDict sub)) ->
      deep_merge base overlay !! k = Some v) /\
  (forall k, overlay !! k = Some VNull -> deep_merge base overlay !! k = Some VNull).
Proof.
  split; [apply deep_merge_dom|].
  repeat split.
  - intros k Ho. by rewrite deep_merge_lookup, Ho.
  - intros k sub over Hb Ho. by rewrite deep_merge_lookup, Hb, Ho.
  - intros k v Ho [Hv|Hb]; rewrite deep_merge_lookup, Ho.
    + by apply merged_entry_plain.
    + by apply merged_entry_over_plain.
  - intros k Ho. by rewrite deep_merge_lookup, Ho.
Qed.

(** C9: the empty mapping is a unit of [deep_merge] on both sides, up to
    structural equality of documents. *)
Theorem deep_merge_empty (X : gmap string yvalue) :
  deep_merge X ∅ = X /\ deep_merge ∅ X = X.
Proof. split; [apply deep_merge_empty_r | apply deep_merge_empty_l]. Qed.

(** ** Properties of the validator *)

Lemma lookup_path_app v walked rest :
  lookup_path v (walked ++ rest)%list = lookup_path v walked ≫= fun w => lookup_path w rest.
Proof.
  revert v. induction walked as [|k walked IH]; intros v; [done|].
  cbn [lookup_path app]. destruct v; try done.
  destruct (d !! k); [apply IH | done].
Qed.

Lemma path_breaks_lookup v parts :
  path_breaks v parts = true <-> lookup_path v parts = None.
Proof.
  revert v. induction parts as [|part rest IH]; intros v; cbn; [done|].
  destruct v; try done. destruct (d !! part); [apply IH | done].
Qed.

Lemma path_breaks_found v parts :
  path_breaks v parts = false <-> is_Some (lookup_path v parts).
Proof.
  rewrite <- not_true_iff_false, path_breaks_lookup.
  rewrite <- not_eq_None_Some. done.
Qed.

Lemma missing_from_lookup v parts :
  lookup_path v parts = None <->
  exists walked part rest current,
    parts = (walked ++ part :: rest)%list /\
    lookup_path v walked = Some current /\
    match current with
    | VDict d => d !! part = None
    | _ => True
    end.
Proof.
  split.
  - revert v. induction parts as [|part rest IH]; intros v Hv; [done|].
    cbn [lookup_path] in Hv.
    destruct (is_dict v) eqn:Hd.
    + destruct v as [| | | | | |d]; try done.
      destruct (d !! part) as [w|] eqn:Hw.
      * destruct (IH w Hv) as (walked & part' & rest' & current & -> & Hc & Hm).
        exists (part :: walked), part', rest', current.
        split; [done|]. split; [|done]. cbn. by rewrite Hw.
      * by exists [], part, rest, (VDict d).
    + exists [], part, rest, v. split; [done|]. split; [done|]. by destruct v.
  - intros (walked & part & rest & current & -> & Hc & Hm).
    rewrite lookup_path_app, Hc. cbn.
    destruct current; try done. by rewrite Hm.
Qed.

Lemma missing_at_lookup config parts :
  missing_at config parts <-> lookup_path (VDict config) parts = None.
Proof. unfold missing_at. by rewrite missing_from_lookup. Qed.

Lemma foldl_collect {A} (P : A -> bool) (l acc : list A) :
  foldl (fun missing x => if P x then (missing ++ [x])%list else missing) acc l
  = (acc ++ List.filter P l)%list.
Proof.
  revert acc. induction l as [|x l IH]; intros acc; cbn.
  - by rewrite app_nil_r.
  - rewrite IH. destruct (P x); [|done]. by rewrite <- app_assoc.
Qed.

Lemma collect_missing_filter config required_keys :
  collect_missing config required_keys =
    filter (fun key_path => lookup_path (VDict config) (split_on "."%char key_path) = None)
           required_keys.
Proof.
  unfold collect_missing. rewrite foldl_collect. cbn [app].
  induction required_keys as [|kp l IH]; [done|].
  cbn [List.filter]. rewrite filter_cons.
  destruct (path_breaks _ _) eqn:Hb.
  - apply path_breaks_lookup in Hb. rewrite decide_True by done. by rewrite IH.
  - rewrite decide_False; [done|].
    rewrite <- path_breaks_lookup. by rewrite Hb.
Qed.

Lemma path_breaks_set_path v parts w :
  is_Some (lookup_path v parts) -> path_breaks (set_path v parts w) parts = false.
Proof.
  revert v. induction parts as [|part rest IH]; intros v Hfound; [done|].
  cbn [lookup_path set_path] in *. destruct v; try by destruct Hfound.
  destruct (d !! part) as [next|] eqn:Hpart; [|by destruct Hfound].
  cbn [path_breaks]. rewrite lookup_insert_eq. by apply IH.
Qed.

(** C10: a required path whose every segment is a key of the mapping
    reached so far is not reported, whatever value the walk ends on or
    passes through: the null document entry, [false], [0] and the empty
    string are present like any other value, and the path stays present
    when the value it ends on is replaced by any other. *)
Theorem present_by_membership (config : gmap string yvalue) (key_path : string)
    (reached : yvalue) (required_keys : list string) (config_path : string) :
  lookup_path (VDict config) (split_on "."%char key_path) = Some reached ->
  path_breaks (VDict config) (split_on "."%char key_path) = false /\
  (key_path ∉ collect_missing config required_keys) /\
  (forall e, _validate_required_keys config [key_path] config_path <> Raise e) /\
  (forall w,
      path_breaks (set_path (VDict config) (split_on "."%char key_path) w)
                  (split_on "."%char key_path) = false).
Proof.
  intros Hfound.
  assert (Hb : path_breaks (VDict config) (split_on "."%char key_path) = false).
  { apply path_breaks_found. by rewrite Hfound. }
  split; [done|]. split; [|split].
  - rewrite collect_missing_filter, list_elem_of_filter. intros [Hnone _].
    by rewrite Hnone in Hfound.
  - intros e. unfold _validate_required_keys, collect_missing. cbn. by rewrite Hb.
  - intros w. eapply path_breaks_set_path. by rewrite Hfound.
Qed.

Lemma present_by_membership_null :
  lookup_path (VDict {[ "key" := VNull ]}) (split_on "."%char "key") = Some VNull /\
  path_breaks (VDict {[ "key" := VNull ]}) (split_on "."%char "key") = false /\
  ("key" ∉ collect_missing {[ "key" := VNull ]} ["key"; "nope"]) /\
  (forall e, _validate_required_keys {[ "key" := VNull ]} ["key"] "main.yaml" <> Raise e) /\
  (forall w,
      path_breaks (set_path (VDict {[ "key" := VNull ]}) (split_on "."%char "key") w)
                  (split_on "."%char "key") = false).
Proof.
  split; [reflexivity|].
  exact (present_by_membership {[ "key" := VNull ]} "key" VNull ["key"; "nope"] "main.yaml"
           eq_refl).
Defined.

(** ** Computations *)

Lemma bind_Some {A B} (c : exec A) (k : A -> exec B) environ environ' o :
  (c ≫= k) environ = Some (environ', o) ->
  (exists e, c environ = Some (environ', Raise e) /\ o = Raise e) \/
  (exists a environ1, c environ = Some (environ1, Return a) /\
                      k a environ1 = Some (environ', o)).
Proof.
  unfold mbind, exec_bind.
  destruct (c environ) as [[environ1 [a|e]]|] eqn:Hc; intros H; [|inversion H; subst|done].
  - right. by exists a, environ1.
  - left. by exists e.
Qed.

Lemma bind_is_Some {A B} (c : exec A) (k : A -> exec B) environ :
  is_Some (c environ) ->
  (forall a environ1, is_Some (k a environ1)) ->
  is_Some ((c ≫= k) environ).
Proof.
  unfold mbind, exec_bind. intros [[environ1 [a|e]] ->] Hk; [apply Hk | done].
Qed.

Lemma list_remove_app_last x l : x ∉ l -> list_remove x (l ++ [x])%list = l.
Proof.
  induction l as [|y l IH]; intros Hx; cbn.
  - by rewrite decide_True.
  - rewrite not_elem_of_cons in Hx. destruct Hx as [Hne Hx].
    rewrite decide_False by done. by rewrite IH.
Qed.

Section LoaderFacts.
Variable py_str : yvalue -> string.
Variable fs : filesystem.

(** The loader, with the bookkeeping of its stack carried out: the stack
    after [finally] is the stack at entry, so [is_root_call] asks whether
    the stack was empty at entry. *)
Lemma load_config_unfold fuel config_path required_keys _include_stack :
  load_config py_str fs (S fuel) config_path required_keys _include_stack =
    if negb (path_exists fs config_path) then raise (NotFound config_path) else
    let stack0 := default [] _include_stack in
    let resolved_path := resolve fs config_path in
    if bool_decide (resolved_path ∈ stack0)
    then raise (CircularInclude (stack0 ++ [resolved_path])%list) else
    config ← try_block fs
               (fun include_full =>
                  load_config py_str fs fuel include_full None
                              (Some (stack0 ++ [resolved_path])%list))
               config_path;
    if bool_decide (stack0 = []) then root_post py_str config_path required_keys config
    else mret config.
Proof.
  cbn [load_config]. destruct (negb _); [done|]. cbn zeta.
  case_bool_decide as Hin; [done|].
  assert (Hin' : resolve fs config_path
                 ∈ (default [] _include_stack ++ [resolve fs config_path])%list).
  { apply elem_of_app. right. by apply list_elem_of_singleton. }
  rewrite (bool_decide_true _ Hin'), list_remove_app_last by done.
  by destruct (default [] _include_stack).
Qed.

(** The include loop, given what a nested call answers: nested calls leave
    the environment alone and satisfy [C]. *)
Lemma include_loop_spec (load : string -> exec (gmap string yvalue))
    (C : string -> outcome (gmap string yvalue) -> Prop) items :
  (forall s environ environ' o,
      VStr s ∈ items -> load s environ = Some (environ', o) ->
      environ' = environ /\ C s o) ->
  forall base_config environ environ' o,
    include_loop load items base_config environ = Some (environ', o) ->
    environ' = environ /\
    match o with
    | Return d =>
        exists names docs,
          items = VStr <$> names /\
          Forall2 (fun s doc => C s (Return doc)) names docs /\
          d = foldl deep_merge base_config docs
    | Raise e =>
        (e = BadIncludes /\ exists x, x ∈ items /\ forall s, x <> VStr s) \/
        (exists s, VStr s ∈ items /\ C s (Raise e))
    end.
Proof.
  induction items as [|x items IH]; intros Hload base_config environ environ' o Hrun.
  - cbn in Hrun. inversion Hrun; subst. split; [done|].
    exists [], []. by repeat split.
  - assert (Hrest : forall s environ environ' o,
               VStr s ∈ items -> load s environ = Some (environ', o) ->
               environ' = environ /\ C s o).
    { intros s ???? Hs. eapply Hload; [|done]. by right. }
    specialize (IH Hrest).
    assert (Hcase : (exists s, x = VStr s) \/ (forall s, x <> VStr s)).
    { destruct x; eauto; by right. }
    destruct Hcase as [[s ->]|Hx].
    + cbn [include_loop] in Hrun. apply bind_Some in Hrun.
      destruct Hrun as [(e & Hc & ->)|(doc & environ1 & Hc & Hk)].
      * destruct (Hload s _ _ _ ltac:(by left) Hc) as [-> HC]. split; [done|].
        right. exists s. split; [by left|done].
      * destruct (Hload s _ _ _ ltac:(by left) Hc) as [-> HC].
        apply IH in Hk as [-> Ho]. split; [done|].
        destruct o as [d|e].
        -- destruct Ho as (names & docs & -> & Hall & ->).
           exists (s :: names), (doc :: docs).
           split; [done|]. split; [by constructor|done].
        -- destruct Ho as [(-> & y & Hy & Hny)|(s' & Hs' & HC')].
           ++ left. split; [done|]. exists y. split; [by right|done].
           ++ right. exists s'. split; [by right|done].
    + assert (Hrun' : raise BadIncludes environ = Some (environ', o)).
      { destruct x; try done. by edestruct Hx. }
      inversion Hrun'; subst. split; [done|]. left. split; [done|].
      exists x. split; [by left|done].
Qed.
(** The [try] block, given what a nested call answers on each included
    path. *)
Lemma try_block_spec (load : string -> exec (gmap string yvalue))
    (C : string -> outcome (gmap string yvalue) -> Prop) config_path :
  (forall q environ environ' o,
      edge fs config_path q -> load q environ = Some (environ', o) ->
      environ' = environ /\ C q o) ->
  forall environ environ' o,
    try_block fs load config_path environ = Some (environ', o) ->
    environ' = environ /\
    match read_config fs config_path with
    | Raise e => o = Raise e
    | Return config =>
        match includes_of fs config_path with
        | None => o = Raise BadIncludes
        | Some items =>
            match o with
            | Return d =>
                exists names docs,
                  items = VStr <$> names /\
                  Forall2 (fun s doc => C (parent_join fs config_path s) (Return doc))
                          names docs /\
                  d = deep_merge (foldl deep_merge ∅ docs) (own_keys fs config_path)
            | Raise e =>
                (e = BadIncludes /\ exists x, x ∈ items /\ forall s, x <> VStr s) \/
                (exists q, edge fs config_path q /\ C q (Raise e))
            end
        end
    end.
Proof.
  intros Hload environ environ' o Hrun.
  unfold try_block in Hrun. apply bind_Some in Hrun.
  unfold edge, includes_of, own_keys in *.
  destruct (read_config fs config_path) as [config|e0] eqn:Hread.
  2:{ destruct Hrun as [(e & He & ->)|(a & environ1 & He & _)];
      unfold lift in He; by inversion He. }
  destruct Hrun as [(e & He & ->)|(a & environ1 & He & Hk)]; [by inversion He|].
  unfold lift in He. injection He as <- <-.
  destruct (config !! include_key) as [includes|] eqn:Hinc.
  2:{ inversion Hk; subst. split; [done|]. exists [], [].
      split; [done|]. split; [constructor|]. cbn [foldl].
      rewrite deep_merge_empty_l. symmetry. by apply delete_id. }
  destruct (include_items includes) as [items|] eqn:Hitems.
  2:{ unfold raise in Hk. injection Hk as <- <-. by split. }
  apply bind_Some in Hk.
  pose proof (include_loop_spec
                (fun include_path => load (parent_join fs config_path include_path))
                (fun s => C (parent_join fs config_path s)) items) as Hloop.
  assert (Hchild : forall s environ environ' o,
             VStr s ∈ items ->
             load (parent_join fs config_path s) environ = Some (environ', o) ->
             environ' = environ /\ C (parent_join fs config_path s) o).
  { intros s e1 e2 o1 Hs Hl. apply Hload; [|done]. by exists items, s. }
  specialize (Hloop Hchild).
  destruct Hk as [(e & Hc & ->)|(base_config & environ1 & Hc & Hk)].
  - apply Hloop in Hc as [-> Ho]. split; [done|].
    destruct Ho as [Hbad|(s & Hs & HC)]; [by left|].
    right. exists (parent_join fs config_path s). split; [|done]. by exists items, s.
  - apply Hloop in Hc as [-> Ho]. inversion Hk; subst. split; [done|].
    destruct Ho as (names & docs & -> & Hall & ->). by exists names, docs.
Qed.

Lemma foldl_deep_merge_lookup_None (docs : list (gmap string yvalue)) base k :
  base !! k = None -> Forall (fun doc => doc !! k = None) docs ->
  foldl deep_merge base docs !! k = None.
Proof.
  revert base. induction docs as [|doc docs IH]; intros base Hb Hall; [done|].
  inversion Hall; subst. cbn. apply IH; [|done]. by apply deep_merge_lookup_None.
Qed.

Lemma own_keys_no_include config_path : own_keys fs config_path !! include_key = None.
Proof.
  unfold own_keys. destruct (read_config fs config_path); [|done].
  apply lookup_delete_eq.
Qed.

Lemma try_block_nested_ok (load : string -> exec (gmap string yvalue)) config_path :
  (forall q environ environ' o,
      edge fs config_path q -> load q environ = Some (environ', o) ->
      environ' = environ /\ nested_ok o) ->
  forall environ environ' o,
    try_block fs load config_path environ = Some (environ', o) ->
    environ' = environ /\ nested_ok o.
Proof.
  intros Hload environ environ' o Hrun.
  destruct (try_block_spec load (fun _ => nested_ok) config_path Hload _ _ _ Hrun)
    as [-> Hspec].
  split; [done|].
  pose proof (own_keys_no_include config_path) as Hown.
  unfold includes_of in Hspec.
  destruct (read_config fs config_path) as [config|e0] eqn:Hread.
  - destruct (match config !! include_key with
              | Some includes => include_items includes
              | None => Some []
              end) as [items|].
    + destruct o as [d|e].
      * destruct Hspec as (names & docs & _ & Hall & ->).
        cbn. apply deep_merge_lookup_None; [|done].
        apply foldl_deep_merge_lookup_None; [done|].
        clear -Hall. induction Hall; by constructor.
      * destruct Hspec as [(-> & _)|(q & _ & HC)]; [by split|done].
    + subst o. by split.
  - subst o. unfold read_config in Hread.
    destruct (files fs !! resolve fs config_path) as [[| |[]]|];
      inversion Hread; by split.
Qed.

Lemma load_config_nested fuel config_path required_keys stack environ environ' o :
  stack <> [] ->
  load_config py_str fs fuel config_path required_keys (Some stack) environ
    = Some (environ', o) ->
  environ' = environ /\ nested_ok o.
Proof.
  revert config_path required_keys stack environ environ' o.
  induction fuel as [|fuel IH]; intros config_path required_keys stack environ environ' o
                                        Hstack Hrun; [done|].
  rewrite load_config_unfold in Hrun. cbn [default] in Hrun.
  destruct (negb _); [by inversion Hrun|].
  cbn zeta in Hrun. case_bool_decide; [by inversion Hrun|].
  rewrite bool_decide_false in Hrun by done.
  apply bind_Some in Hrun.
  assert (Hchild : forall q environ environ' o,
             edge fs config_path q ->
             load_config py_str fs fuel q None
               (Some (stack ++ [resolve fs config_path])%list) environ
               = Some (environ', o) ->
             environ' = environ /\ nested_ok o).
  { intros q ? ? ? _. apply IH. by destruct stack. }
  destruct Hrun as [(e & Hc & ->)|(config & environ1 & Hc & Hk)].
  - by apply (try_block_nested_ok _ _ Hchild) in Hc.
  - apply (try_block_nested_ok _ _ Hchild) in Hc as [-> Hok].
    by inversion Hk; subst.
Qed.

(** A call without a stack, or with an empty one: the [try] block on the
    nested calls, then the root-only block. *)
Lemma load_config_root fuel config_path required_keys _include_stack :
  default [] _include_stack = [] ->
  load_config py_str fs (S fuel) config_path required_keys _include_stack =
    if negb (path_exists fs config_path) then raise (NotFound config_path) else
    config ← try_block fs
               (fun include_full =>
                  load_config py_str fs fuel include_full None
                              (Some [resolve fs config_path]))
               config_path;
    root_post py_str config_path required_keys config.
Proof.
  intros Hstack. rewrite load_config_unfold, Hstack. cbn zeta.
  destruct (negb _); [done|]. by rewrite bool_decide_false by apply not_elem_of_nil.
Qed.

Lemma root_try_block fuel config_path environ environ' o :
  try_block fs
    (fun include_full =>
       load_config py_str fs fuel include_full None (Some [resolve fs config_path]))
    config_path environ = Some (environ', o) ->
  environ' = environ /\ nested_ok o.
Proof.
  apply try_block_nested_ok. intros q ? ? ? _. by apply load_config_nested.
Qed.


Lemma root_post_falsy config_path required_keys config environ environ' e :
  required_keys = None \/ required_keys = Some [] ->
  root_post py_str config_path required_keys config environ = Some (environ', Raise e) ->
  e = EnvNotMapping.
Proof.
  unfold root_post. intros [-> | ->] H;
    destruct (config !! env_key) as [[]|]; by inversion H.
Qed.



End LoaderFacts.

(** ** The include directive in the result *)





(** ** Environment seeding *)




(** ** Required keys *)

Lemma load_config_no_missing py_str fs fuel config_path required_keys _include_stack
    environ environ' e cp missing :
  required_keys = None \/ required_keys = Some [] ->
  load_config py_str fs fuel config_path required_keys _include_stack environ
    = Some (environ', Raise e) ->
  e <> MissingRequiredKeys cp missing.
Proof.
  intros Hkeys Hrun. destruct fuel as [|fuel]; [done|].
  destruct (default [] _include_stack) as [|x stack] eqn:Hstack.
  - rewrite load_config_root in Hrun by done.
    destruct (negb _); [by inversion Hrun|].
    apply bind_Some in Hrun as [(e' & Hc & [= ->])|(config & environ1 & Hc & Hk)].
    + apply root_try_block in Hc as [_ [_ Hok]]. apply Hok.
    + by apply root_post_falsy in Hk as ->.
  - destruct _include_stack as [stack'|]; [|done]. cbn in Hstack. subst stack'.
    apply load_config_nested in Hrun as [_ [_ Hok]]; [apply Hok|done].
Qed.

(** C7: the validator reports exactly the required paths that fail, in the
    order of the input; a path fails when at some segment the value reached
    is not a mapping or lacks the segment; it raises [MissingRequiredKeys]
    with all of them when there is one, its message listing them in that
    order, and returns otherwise; the loader runs it on the merged document
    of a call from outside; and a call with no required keys, or an empty
    list of them, never raises it. *)
Theorem required_keys_validation (py_str : yvalue -> string) (fs : filesystem)
    (config : gmap string yvalue) (required_keys : list string) (config_path : string) :
  let fails := fun key_path =>
    lookup_path (VDict config) (split_on "."%char key_path) = None in
  collect_missing config required_keys = filter fails required_keys /\
  (forall key_path,
      fails key_path <-> missing_at config (split_on "."%char key_path)) /\
  _validate_required_keys config required_keys config_path =
    match filter fails required_keys with
    | [] => Return tt
    | missing => Raise (MissingRequiredKeys config_path missing)
    end /\
  (forall environ,
      config !! env_key = None ->
      root_post py_str config_path (Some required_keys) config environ =
        Some (environ,
              match filter fails required_keys with
              | [] => Return config
              | missing => Raise (MissingRequiredKeys config_path missing)
              end)) /\
  (forall fuel p keys stack environ environ' e cp missing,
      keys = None \/ keys = Some [] ->
      load_config py_str fs fuel p keys stack environ = Some (environ', Raise e) ->
      e <> MissingRequiredKeys cp missing) /\
  (forall missing,
      message (MissingRequiredKeys config_path missing)
        = Some ("Invalid config: missing required keys in " ++ config_path ++ ": "
                ++ join ", " missing)).
Proof.
  intros fails.
  split; [apply collect_missing_filter|].
  split; [intros key_path; symmetry; apply missing_at_lookup|].
  split; [unfold _validate_required_keys; by rewrite collect_missing_filter|].
  split; [|split; [|done]].
  - intros environ Henv. unfold root_post. rewrite Henv.
    destruct required_keys as [|key keys]; [done|].
    unfold _validate_required_keys. rewrite collect_missing_filter.
    fold fails. by destruct (filter fails (key :: keys)).
  - intros. by eapply load_config_no_missing.
Qed.

Lemma required_keys_validation_doc :
  collect_missing doc_required ["api.key"; "database.host"; "api"; "nope"]
    = ["database.host"; "nope"] /\
  missing_at doc_required (split_on "."%char "database.host") /\
  _validate_required_keys doc_required ["api.key"; "database.host"; "api"; "nope"]
    "main.yaml" = Raise (MissingRequiredKeys "main.yaml" ["database.host"; "nope"]) /\
  root_post str_of "main.yaml" (Some ["api.key"; "database.host"; "api"; "nope"])
    doc_required ∅
    = Some (∅, Raise (MissingRequiredKeys "main.yaml" ["database.host"; "nope"])) /\
  NotFound "nope.yaml" <> MissingRequiredKeys "nope.yaml" [].
Proof.
  pose proof (required_keys_validation str_of fs_multi doc_required
                ["api.key"; "database.host"; "api"; "nope"] "main.yaml") as H.
  cbv zeta in H. destruct H as (H1 & H2 & H3 & H4 & H5 & _).
  split; [exact H1|].
  split; [apply (proj1 (H2 "database.host")); reflexivity|].
  split; [exact H3|].
  split; [exact (H4 ∅ eq_refl)|].
  exact (H5 1 "nope.yaml" (Some []) None ∅ ∅ (NotFound "nope.yaml") "nope.yaml" []
            (or_intror eq_refl) eq_refl).
Defined.

(** The contract at the docstring's example and at a null overlay. *)
Lemma deep_merge_contract_example :
  deep_merge {[ "a" := VInt 1; "b" := VDict {[ "c" := VInt 2 ]} ]}
             {[ "b" := VDict {[ "d" := VInt 3 ]}; "e" := VNull ]} !! "a" = Some (VInt 1) /\
  deep_merge {[ "a" := VInt 1; "b" := VDict {[ "c" := VInt 2 ]} ]}
             {[ "b" := VDict {[ "d" := VInt 3 ]}; "e" := VNull ]} !! "b"
    = Some (VDict (deep_merge {[ "c" := VInt 2 ]} {[ "d" := VInt 3 ]})) /\
  deep_merge {[ "a" := VInt 1; "b" := VDict {[ "c" := VInt 2 ]} ]}
             {[ "b" := VDict {[ "d" := VInt 3 ]}; "e" := VNull ]} !! "e" = Some VNull.
Proof.
  destruct (deep_merge_contract
              {[ "a" := VInt 1; "b" := VDict {[ "c" := VInt 2 ]} ]}
              {[ "b" := VDict {[ "d" := VInt 3 ]}; "e" := VNull ]})
    as (_ & Hbase & Hboth & Hover & Hnull).
  split; [exact (Hbase "a" eq_refl)|].
  split; [exact (Hboth "b" _ _ eq_refl eq_refl)|].
  exact (Hnull "e" eq_refl).
Defined.

(** ** Include resolution *)






(** ** Termination *)

Lemma include_loop_is_Some (load : string -> exec (gmap string yvalue)) items
    base_config environ :
  (forall q e, is_Some (load q e)) ->
  is_Some (include_loop load items base_config environ).
Proof.
  intros Hload. revert base_config environ.
  induction items as [|x items IH]; intros base_config environ; [done|].
  destruct x; try done. cbn [include_loop].
  apply bind_is_Some; [apply Hload|]. intros. apply IH.
Qed.

Lemma try_block_is_Some fs (load : string -> exec (gmap string yvalue)) config_path
    environ :
  (forall q e, is_Some (load q e)) ->
  is_Some (try_block fs load config_path environ).
Proof.
  intros Hload. unfold try_block. apply bind_is_Some; [done|].
  intros config environ1.
  destruct (config !! include_key) as [includes|]; [|done].
  destruct (include_items includes) as [items|]; [|done].
  apply bind_is_Some; [|done].
  apply include_loop_is_Some. intros. apply Hload.
Qed.

Lemma root_post_is_Some py_str config_path required_keys config environ :
  is_Some (root_post py_str config_path required_keys config environ).
Proof.
  unfold root_post.
  destruct (config !! env_key) as [[]|]; try done;
    destruct required_keys as [[|]|]; try done;
    by destruct (_validate_required_keys _ _ _).
Qed.

(** A stack of distinct canonical paths of files is no longer than the
    number of files. *)
Lemma stack_length_bound (m : gmap string file_read) (stack : list string) :
  NoDup stack -> (forall x, x ∈ stack -> is_Some (m !! x)) ->
  List.length stack <= size m.
Proof.
  intros Hnodup Hin.
  rewrite <- size_dom. unfold size at 1, set_size. cbn.
  apply submseteq_length, NoDup_submseteq; [done|].
  intros x Hx. apply elem_of_elements, elem_of_dom. by apply Hin.
Qed.

Lemma load_config_is_Some py_str fs fuel config_path required_keys _include_stack environ :
  NoDup (default [] _include_stack) ->
  (forall x, x ∈ default [] _include_stack -> is_Some (files fs !! x)) ->
  size (files fs) < fuel + List.length (default [] _include_stack) ->
  is_Some (load_config py_str fs fuel config_path required_keys _include_stack environ).
Proof.
  revert config_path required_keys _include_stack environ.
  induction fuel as [|fuel IH];
    intros config_path required_keys _include_stack environ Hnodup Hfiles Hfuel.
  - pose proof (stack_length_bound _ _ Hnodup Hfiles). cbn in Hfuel. lia.
  - rewrite load_config_unfold.
    destruct (path_exists fs config_path) eqn:Hexists; [|done]. cbn [negb]. cbn zeta.
    case_bool_decide as Hin; [done|].
    apply bind_is_Some.
    + apply try_block_is_Some. intros q e. apply IH; cbn [default from_option id].
      * apply NoDup_app. split; [done|]. split; [|apply NoDup_singleton].
        intros x Hx Hx'. apply list_elem_of_singleton in Hx'. by subst.
      * intros x [Hx|Hx]%elem_of_app; [by apply Hfiles|].
        apply list_elem_of_singleton in Hx. subst.
        by apply bool_decide_eq_true in Hexists.
      * rewrite length_app. cbn. lia.
    + intros config environ1. case_bool_decide; [|done]. apply root_post_is_Some.
Qed.

Lemma load_is_Some py_str fs config_path required_keys environ :
  is_Some (load py_str fs config_path required_keys environ).
Proof.
  unfold load. apply load_config_is_Some; cbn.
  - constructor.
  - intros x Hx. by apply not_elem_of_nil in Hx.
  - lia.
Qed.

(** ** The include graph and the loader *)

Lemma names_of_Some items names :
  names_of items = Some names <-> items = VStr <$> names.
Proof.
  revert names. induction items as [|x items IH]; intros names.
  - cbn. split; [intros [= <-]; done|]. by destruct names.
  - split.
    + destruct x; try done. cbn.
      destruct (names_of items) as [rest|] eqn:Hrest; [|done].
      intros [= <-]. cbn. f_equal. by apply IH.
    + destruct names as [|s names]; [done|]. intros [= -> ->]. cbn.
      by rewrite (proj2 (IH names) eq_refl).
Qed.

Lemma VStr_fmap_inj (a b : list string) : VStr <$> a = VStr <$> b -> a = b.
Proof.
  intros H. apply names_of_Some in H.
  rewrite (proj2 (names_of_Some (VStr <$> a) a) eq_refl) in H. by injection H.
Qed.

Lemma VStr_elem_of_fmap s (names : list string) : VStr s ∈ VStr <$> names <-> s ∈ names.
Proof.
  rewrite list_elem_of_fmap. split; [|by eexists].
  by intros (s' & [= ->] & Hs).
Qed.

Lemma deep_merge_is_Some (base overlay : gmap string yvalue) k :
  is_Some (deep_merge base overlay !! k) <-> is_Some (base !! k) \/ is_Some (overlay !! k).
Proof. rewrite deep_merge_lookup. apply merged_entry_is_Some. Qed.

Lemma foldl_deep_merge_is_Some (docs : list (gmap string yvalue)) base doc k :
  doc ∈ docs -> is_Some (doc !! k) -> is_Some (foldl deep_merge base docs !! k).
Proof.
  assert (Hbase : forall docs base,
             is_Some (base !! k) -> is_Some (foldl deep_merge base docs !! k)).
  { clear. induction docs as [|d docs IH]; intros base Hb; [done|].
    cbn. apply IH, deep_merge_is_Some. by left. }
  revert base. induction docs as [|d docs IH]; intros base Hin Hk.
  - by apply not_elem_of_nil in Hin.
  - apply elem_of_cons in Hin as [->|Hin]; cbn.
    + apply Hbase, deep_merge_is_Some. by right.
    + by apply IH.
Qed.

Lemma foldl_deep_merge_is_Some_inv (docs : list (gmap string yvalue)) base k :
  is_Some (foldl deep_merge base docs !! k) ->
  is_Some (base !! k) \/ exists doc, doc ∈ docs /\ is_Some (doc !! k).
Proof.
  revert base. induction docs as [|d docs IH]; intros base Hk; [by left|].
  cbn in Hk. apply IH in Hk as [Hk|(doc & Hdoc & Hk)].
  - apply deep_merge_is_Some in Hk as [Hk|Hk]; [by left|].
    right. exists d. split; [by left|done].
  - right. exists doc. split; [by right|done].
Qed.

Section GraphFacts.
Variable py_str : yvalue -> string.
Variable fs : filesystem.

Lemma edge_names p names q :
  includes_of fs p = Some (VStr <$> names) ->
  edge fs p q <-> exists s, s ∈ names /\ q = parent_join fs p s.
Proof.
  intros Hinc. unfold edge. split.
  - intros (items & s & Hitems & Hs & ->). rewrite Hinc in Hitems.
    injection Hitems as <-. exists s. split; [by apply VStr_elem_of_fmap|done].
  - intros (s & Hs & ->). exists (VStr <$> names), s.
    split; [done|]. split; [by apply VStr_elem_of_fmap|done].
Qed.

Lemma wf_from_edge p q : wf_from fs p -> edge fs p q -> wf_from fs q.
Proof. intros Hwf Hedge r Hr. apply Hwf. by eapply rtc_l. Qed.

Lemma wf_from_node p : wf_from fs p -> wf_node fs p.
Proof. intros Hwf. by apply Hwf. Qed.

(** The [try] block of a well-formed file, given the verdict on each
    included file. *)
Lemma try_block_verdict (load : string -> exec (gmap string yvalue)) stack p :
  (forall q environ environ' o,
      edge fs p q -> load q environ = Some (environ', o) ->
      environ' = environ /\ verdict fs (stack ++ [resolve fs p])%list q o) ->
  wf_node fs p -> NoDup stack -> resolve fs p ∉ stack ->
  forall environ environ' o,
    try_block fs load p environ = Some (environ', o) ->
    environ' = environ /\ verdict fs stack p o.
Proof.
  intros Hload [_ [names Hnames]] Hnodup Hfresh environ environ' o Hrun.
  destruct (try_block_spec fs load _ p Hload _ _ _ Hrun) as [-> Hspec].
  split; [done|].
  assert (Hstack1 : NoDup (stack ++ [resolve fs p])%list).
  { apply NoDup_app. split; [done|]. split; [|apply NoDup_singleton].
    intros x Hx Hx'. apply list_elem_of_singleton in Hx'. by subst. }
  rewrite Hnames in Hspec.
  destruct (read_config fs p) as [config|e0] eqn:Hread.
  2:{ unfold includes_of in Hnames. by rewrite Hread in Hnames. }
  destruct o as [d|e].
  - destruct Hspec as (names' & docs & Heq & Hall & ->).
    apply VStr_fmap_inj in Heq as <-.
    assert (Hchild : forall q, edge fs p q ->
               exists doc, doc ∈ docs /\ verdict fs (stack ++ [resolve fs p])%list q
                                                 (Return doc)).
    { intros q (s & Hs & ->)%(edge_names _ _ _ Hnames).
      apply list_elem_of_lookup in Hs as [i Hi].
      destruct (Forall2_lookup_l _ _ _ _ _ Hall Hi) as (doc & Hdoc & HC).
      exists doc. split; [|done]. by eapply list_elem_of_lookup_2. }
    split.
    + intros qs Hchain. inversion Hchain as [|? q qs' Hedge Hrest]; subst.
      * done.
      * destruct (Hchild q Hedge) as (doc & _ & [Hacyclic _]).
        specialize (Hacyclic qs' Hrest).
        by rewrite <- app_assoc in Hacyclic.
    + intros k. rewrite deep_merge_is_Some. split.
      * intros [Hbase|Hown]; [|by exists p].
        apply foldl_deep_merge_is_Some_inv in Hbase as [Hempty|(doc & Hdoc & Hk)].
        { rewrite lookup_empty in Hempty. by destruct Hempty. }
        apply list_elem_of_lookup in Hdoc as [i Hi].
        destruct (Forall2_lookup_r _ _ _ _ _ Hall Hi) as (s & Hs & [_ Hkeys]).
        destruct (proj1 (Hkeys k) Hk) as (q & Hreach & Hq). exists q. split; [|done].
        eapply rtc_l; [|done]. apply (edge_names _ _ _ Hnames).
        exists s. split; [by eapply list_elem_of_lookup_2|done].
      * intros (q & Hreach & Hk).
        apply rtc_inv in Hreach as [<-|(c & Hedge & Hreach)]; [by right|].
        left. destruct (Hchild c Hedge) as (doc & Hdoc & [_ Hkeys]).
        eapply foldl_deep_merge_is_Some; [done|]. apply Hkeys. by exists q.
  - destruct Hspec as [(_ & x & Hx & Hnot)|(q & Hedge & HC)].
    + apply list_elem_of_fmap in Hx as (s & -> & _). by edestruct Hnot.
    + destruct HC as (qs & before & z & Hchain & Hlist & -> & Hnd & Hin).
      exists (q :: qs), (p :: before), z.
      split; [by constructor|]. split; [by rewrite Hlist|].
      rewrite <- !app_assoc in *. cbn in *. done.
Qed.

Lemma load_config_verdict fuel p required_keys stack environ environ' o :
  stack <> [] -> NoDup stack -> wf_from fs p ->
  load_config py_str fs fuel p required_keys (Some stack) environ = Some (environ', o) ->
  environ' = environ /\ verdict fs stack p o.
Proof.
  revert p required_keys stack environ environ' o.
  induction fuel as [|fuel IH];
    intros p required_keys stack environ environ' o Hstack Hnodup Hwf Hrun; [done|].
  rewrite load_config_unfold in Hrun. cbn [default from_option id] in Hrun.
  destruct (wf_from_node _ Hwf) as [Hexists Hnames].
  rewrite Hexists in Hrun. cbn [negb] in Hrun. cbn zeta in Hrun.
  case_bool_decide as Hin.
  - injection Hrun as <- <-. split; [done|].
    exists [], [], p. split; [constructor|]. split; [done|].
    cbn. rewrite app_nil_r. done.
  - rewrite bool_decide_false in Hrun by done.
    assert (Hstack1 : NoDup (stack ++ [resolve fs p])%list).
    { apply NoDup_app. split; [done|]. split; [|apply NoDup_singleton].
      intros x Hx Hx'. apply list_elem_of_singleton in Hx'. by subst. }
    assert (Hchild : forall q environ environ' o,
               edge fs p q ->
               load_config py_str fs fuel q None
                 (Some (stack ++ [resolve fs p])%list) environ = Some (environ', o) ->
               environ' = environ /\ verdict fs (stack ++ [resolve fs p])%list q o).
    { intros q ? ? ? Hedge. apply IH; [by destruct stack|done|by eapply wf_from_edge]. }
    apply bind_Some in Hrun as [(e & Hc & ->)|(config & environ1 & Hc & Hk)].
    + exact (try_block_verdict _ stack p Hchild (conj Hexists Hnames) Hnodup Hin
               _ _ _ Hc).
    + destruct (try_block_verdict _ stack p Hchild (conj Hexists Hnames) Hnodup Hin
                  _ _ _ Hc) as [-> Hv].
      by injection Hk as <- <-.
Qed.

(** The verdict on a call from outside, before the root-only block. *)
Lemma root_verdict fuel p environ environ' o :
  wf_from fs p ->
  try_block fs
    (fun include_full =>
       load_config py_str fs fuel include_full None (Some [resolve fs p]))
    p environ = Some (environ', o) ->
  environ' = environ /\ verdict fs [] p o.
Proof.
  intros Hwf. apply try_block_verdict.
  - intros q ? ? ? Hedge. apply load_config_verdict; [done| |by eapply wf_from_edge].
    apply NoDup_singleton.
  - by apply wf_from_node.
  - constructor.
  - apply not_elem_of_nil.
Qed.
End GraphFacts.

(** ** Checking a concrete include graph *)

Lemma includes_names fs p names :
  includes_of fs p ≫= names_of = Some names ->
  includes_of fs p = Some (VStr <$> names).
Proof.
  destruct (includes_of fs p) as [items|]; [|done]. cbn.
  intros H. f_equal. by apply names_of_Some.
Qed.

Lemma edge_intro fs p names s :
  includes_of fs p ≫= names_of = Some names -> s ∈ names ->
  edge fs p (parent_join fs p s).
Proof.
  intros Hnames%includes_names Hs. apply (edge_names fs _ _ _ Hnames). by exists s.
Qed.


Lemma dfs_ok_sound fs depth stack p :
  NoDup stack -> dfs_ok fs depth stack p = true ->
  wf_from fs p /\ acyclic_from fs stack p.
Proof.
  revert stack p. induction depth as [|depth IH]; intros stack p Hnodup Hok; [done|].
  cbn [dfs_ok] in Hok.
  apply andb_true_iff in Hok as [[Hexists Hfresh]%andb_true_iff Hinc].
  apply bool_decide_eq_true in Hfresh.
  destruct (includes_of fs p ≫= names_of) as [names|] eqn:Hnames; [|done].
  apply includes_names in Hnames.
  rewrite forallb_forall in Hinc.
  assert (Hstack1 : NoDup (stack ++ [resolve fs p])%list).
  { apply NoDup_app. split; [done|]. split; [|apply NoDup_singleton].
    intros x Hx Hx'. apply list_elem_of_singleton in Hx'. by subst. }
  assert (Hchild : forall q, edge fs p q ->
             wf_from fs q /\ acyclic_from fs (stack ++ [resolve fs p])%list q).
  { intros q (s & Hs & ->)%(edge_names fs _ _ _ Hnames).
    apply IH; [done|]. apply Hinc. by apply list_elem_of_In. }
  split.
  - intros q Hreach.
    apply rtc_inv in Hreach as [<-|(c & Hedge & Hreach)].
    + split; [done|by exists names].
    + by apply (Hchild c Hedge).
  - intros qs Hchain. inversion Hchain as [|? q qs' Hedge Hrest]; subst; [done|].
    destruct (Hchild q Hedge) as [_ Hacyclic].
    specialize (Hacyclic qs' Hrest). by rewrite <- app_assoc in Hacyclic.
Qed.

(** ** A returned document excludes a cycle, whatever the files hold *)

Section Acyclic.
Variable py_str : yvalue -> string.
Variable fs : filesystem.



End Acyclic.

(** ** Cycles and diamonds *)

Lemma load_cycle :
  load str_of fs_cycle "a.yaml" None ∅
    = Some (∅, Raise (CircularInclude
                        ["/cfg/a.yaml"; "/cfg/b.yaml"; "/cfg/c.yaml"; "/cfg/a.yaml"])).
Proof. vm_compute. reflexivity. Qed.



Lemma root_post_Raise py_str config_path required_keys config environ environ' e :
  root_post py_str config_path required_keys config environ = Some (environ', Raise e) ->
  e = EnvNotMapping \/ exists missing, e = MissingRequiredKeys config_path missing.
Proof.
  unfold root_post, _validate_required_keys. intros H.
  destruct (config !! env_key) as [[]|]; try (by inversion H; left);
    destruct required_keys as [[|]|]; try (by inversion H);
    destruct (collect_missing _ _); inversion H; right; by eexists.
Qed.

Lemma load_diamond :
  load str_of fs_diamond "main.yaml" None ∅ = Some (∅, Return doc_diamond).
Proof. vm_compute. reflexivity. Qed.

(** C3: in an include graph of well-formed files in which no chain of
    includes from the loaded file meets a canonical path twice, a file
    reached along two branches included, every call on an included file is
    entered with the stack of its ancestors alone and returns; [load] does
    not raise [CircularInclude]: it runs the root-only block on the merged
    document; and the keys of that document are the keys of the files
    reachable from the loaded one, those of a file shared by two branches
    among them, each held once as a mapping holds a key. *)
Theorem diamond_tolerated (py_str : yvalue -> string) (fs : filesystem) (p : string)
    (required_keys : option (list string)) (environ : gmap string string) :
  wf_from fs p -> acyclic_from fs [] p ->
  exists merged,
    load py_str fs p required_keys environ
      = root_post py_str p required_keys merged environ /\
    (forall environ' cycle,
        load py_str fs p required_keys environ
          <> Some (environ', Raise (CircularInclude cycle))) /\
    (required_keys = None -> merged !! env_key = None ->
     load py_str fs p required_keys environ = Some (environ, Return merged)) /\
    (forall q, edge fs p q ->
       exists doc,
         load_config py_str fs (size (files fs)) q None (Some [resolve fs p]) environ
           = Some (environ, Return doc)) /\
    (forall k, is_Some (merged !! k) <->
               exists q, rtc (edge fs) p q /\ is_Some (own_keys fs q !! k)) /\
    (forall left right shared k,
        edge fs p left -> edge fs p right ->
        rtc (edge fs) left shared -> rtc (edge fs) right shared ->
        is_Some (own_keys fs shared !! k) -> is_Some (merged !! k)).
Proof.
  intros Hwf Hacyclic.
  destruct (wf_from_node fs _ Hwf) as [Hexists _].
  assert (Hfresh : forall before z qs,
             chain fs p qs -> p :: qs = (before ++ [z])%list ->
             resolve fs z ∈ resolve fs <$> before -> False).
  { intros before z qs Hchain Hlist Hin.
    specialize (Hacyclic qs Hchain). cbn [app] in Hacyclic.
    rewrite Hlist, fmap_app in Hacyclic.
    apply NoDup_app in Hacyclic as (_ & Hdisj & _).
    apply (Hdisj _ Hin). by left. }
  destruct (load_is_Some py_str fs p required_keys environ) as [[environ' o] Hrun].
  pose proof Hrun as Hload. unfold load in Hrun.
  rewrite load_config_root in Hrun by done.
  rewrite Hexists in Hrun. cbn [negb] in Hrun.
  apply bind_Some in Hrun as [(e & Hc & ->)|(merged & environ1 & Hc & Hk)].
  { apply root_verdict in Hc as [-> Hv]; [|done].
    destruct Hv as (cycle & before & z & Hcycle & Hlist & _ & _ & Hin).
    destruct (Hfresh before z cycle Hcycle Hlist Hin). }
  apply root_verdict in Hc as [-> [_ Hkeys]]; [|done].
  exists merged. rewrite Hload.
  split; [done|]. split; [|split; [|split; [|split]]].
  - intros environ1 cycle Heq. rewrite <- Hk in Heq.
    by apply root_post_Raise in Heq as [?|[? ?]].
  - intros -> Henv. rewrite <- Hk. unfold root_post. by rewrite Henv.
  - intros q Hedge.
    destruct (load_config_is_Some py_str fs (size (files fs)) q None
                (Some [resolve fs p]) environ) as [[environ1 o1] Hq].
    + apply NoDup_singleton.
    + intros x Hx%list_elem_of_singleton. subst.
      by apply bool_decide_eq_true in Hexists.
    + cbn. lia.
    + apply load_config_verdict in Hq as Hv;
        [|done|apply NoDup_singleton|by eapply wf_from_edge].
      destruct Hv as [-> Hv]. destruct o1 as [doc|e]; [by exists doc|].
      destruct Hv as (cycle & before & z & Hcycle & Hlist & _ & _ & Hin).
      destruct (Hfresh (p :: before) z (q :: cycle)).
      * by constructor.
      * cbn. by rewrite Hlist.
      * done.
  - done.
  - intros left right shared k Hleft _ Hreach _ Hk'. apply Hkeys.
    exists shared. split; [by eapply rtc_l|done].
Qed.

Lemma diamond_tolerated_diamond :
  wf_from fs_diamond "main.yaml" /\
  acyclic_from fs_diamond [] "main.yaml" /\
  load str_of fs_diamond "main.yaml" None ∅ = Some (∅, Return doc_diamond) /\
  exists merged,
    load str_of fs_diamond "main.yaml" None ∅
      = root_post str_of "main.yaml" None merged ∅ /\
    is_Some (merged !! "shared").
Proof.
  assert (Hok : wf_from fs_diamond "main.yaml" /\ acyclic_from fs_diamond [] "main.yaml").
  { apply (dfs_ok_sound fs_diamond 3); [constructor | vm_compute; reflexivity]. }
  destruct Hok as [Hwf Hacyclic].
  split; [done|]. split; [done|]. split; [exact load_diamond|].
  destruct (diamond_tolerated str_of fs_diamond "main.yaml" None ∅ Hwf Hacyclic)
    as (merged & Hload & _ & _ & _ & _ & Hshared).
  exists merged. split; [done|].
  apply (Hshared "left.yaml" "right.yaml" "shared.yaml" "shared").
  - eapply (edge_intro fs_diamond _ [_; _]); [vm_compute; reflexivity | left].
  - eapply (edge_intro fs_diamond _ [_; _]); [vm_compute; reflexivity | right; left].
  - eapply rtc_l; [|apply rtc_refl].
    eapply (edge_intro fs_diamond _ [_]); [vm_compute; reflexivity | left].
  - eapply rtc_l; [|apply rtc_refl].
    eapply (edge_intro fs_diamond _ [_]); [vm_compute; reflexivity | left].
  - vm_compute. by eexists.
Defined.

(** ** The merger on the heap: inputs are left alone *)

Lemma setitem_lookup_ne result key value (h : gmap nat Heap.object) l :
  l <> result -> Heap.setitem result key value h !! l = h !! l.
Proof. intros Hl. unfold Heap.setitem. by rewrite lookup_alter_ne. Qed.

Lemma setitem_lookup_dict result key value (h : gmap nat Heap.object) entries :
  h !! result = Some (Heap.ODict entries) ->
  Heap.setitem result key value h !! result = Some (Heap.ODict (<[key := value]> entries)).
Proof. intros Hr. unfold Heap.setitem. by rewrite lookup_alter_eq, Hr. Qed.

(** One step of the loop writes to [result] only, when the nested call
    writes to nothing that exists. *)
Lemma merge_item_frame rec result key value (h h' : gmap nat Heap.object) :
  (forall h0 a b h1 r, rec h0 a b = Some (h1, r) -> h0 ⊆ h1) ->
  Heap.merge_item rec result key value h = Some h' ->
  (forall l, l <> result -> forall o, h !! l = Some o -> h' !! l = Some o) /\
  (exists entries, h !! result = Some (Heap.ODict entries)) /\
  (exists entries, h' !! result = Some (Heap.ODict entries)).
Proof.
  intros Hrec Hstep. unfold Heap.merge_item in Hstep.
  destruct (h !! result) as [[entries|]|] eqn:Hresult; try done.
  assert (Hplain : forall v,
             (forall l, l <> result -> forall o, h !! l = Some o ->
                        Heap.setitem result key v h !! l = Some o) /\
             (exists e, Some (Heap.ODict entries) = Some (Heap.ODict e)) /\
             (exists e, Heap.setitem result key v h !! result = Some (Heap.ODict e))).
  { intros v. split; [|split].
    - intros l Hl o Ho. by rewrite setitem_lookup_ne.
    - by eexists.
    - eexists. by apply setitem_lookup_dict. }
  destruct (entries !! key ≫= Heap.dict_at h) as [sub|];
    [|injection Hstep as <-; apply Hplain].
  destruct (Heap.dict_at h value) as [over|];
    [|injection Hstep as <-; apply Hplain].
  destruct (rec h sub over) as [[h1 merged]|] eqn:Hcall; [|done].
  injection Hstep as <-. apply Hrec in Hcall.
  rewrite map_subseteq_spec in Hcall.
  split; [|split].
  - intros l Hl o Ho. rewrite setitem_lookup_ne by done. by apply Hcall.
  - by eexists.
  - eexists. apply setitem_lookup_dict. by apply Hcall.
Qed.

Lemma merge_loop_frame rec result (h0 : gmap nat Heap.object) entries0
    (overlay_entries : gmap string Heap.hvalue) h' :
  (forall h a b h1 r, rec h a b = Some (h1, r) -> h ⊆ h1) ->
  h0 !! result = Some (Heap.ODict entries0) ->
  map_fold (fun key value acc => acc ≫= Heap.merge_item rec result key value)
           (Some h0) overlay_entries = Some h' ->
  (forall l, l <> result -> forall o, h0 !! l = Some o -> h' !! l = Some o) /\
  (exists entries, h' !! result = Some (Heap.ODict entries)).
Proof.
  intros Hrec Hresult. revert h'.
  apply (map_fold_weak_ind
           (fun acc (_ : gmap string Heap.hvalue) =>
              forall h', acc = Some h' ->
                (forall l, l <> result -> forall o, h0 !! l = Some o -> h' !! l = Some o) /\
                (exists entries, h' !! result = Some (Heap.ODict entries)))).
  - intros h' [= <-]. split; [done|by eexists].
  - intros key value m acc _ IH h' Hstep.
    destruct acc as [h1|]; [|done]. cbn in Hstep.
    destruct (IH h1 eq_refl) as [Hframe _].
    destruct (merge_item_frame _ _ _ _ _ _ Hrec Hstep) as (Hframe' & _ & Hdict).
    split; [|done]. intros l Hl o Ho. by apply Hframe', Hframe.
Qed.

Lemma heap_deep_merge_frame fuel (h : gmap nat Heap.object) base overlay h' result :
  Heap.deep_merge fuel h base overlay = Some (h', result) ->
  h ⊆ h' /\ h !! result = None /\ exists entries, h' !! result = Some (Heap.ODict entries).
Proof.
  revert h base overlay h' result.
  induction fuel as [|fuel IH]; intros h base overlay h' result Hrun; [done|].
  cbn [Heap.deep_merge] in Hrun.
  destruct (h !! base) as [[base_entries|]|]; try done.
  destruct (h !! overlay) as [[overlay_entries|]|]; try done.
  destruct (map_fold _ _ _) as [h1|] eqn:Hloop; [|done].
  injection Hrun as <- <-.
  assert (Hfresh : h !! fresh (dom h) = None).
  { apply not_elem_of_dom, is_fresh. }
  apply (merge_loop_frame _ _ _ base_entries) in Hloop as [Hframe Hdict].
  - split; [|done]. apply map_subseteq_spec. intros l o Ho.
    assert (l <> fresh (dom h)) by (intros ->; by rewrite Hfresh in Ho).
    apply Hframe; [done|]. by rewrite lookup_insert_ne.
  - intros h0 a b h2 r Hcall. by apply IH in Hcall as [? _].
  - apply lookup_insert_eq.
Qed.

(** Whatever could be read from a heap can be read from a larger one. *)
Lemma snapshot_mono depth (h h' : gmap nat Heap.object) v y :
  h ⊆ h' -> Heap.snapshot depth h v = Some y -> Heap.snapshot depth h' v = Some y.
Proof.
  intros Hsub. rewrite map_subseteq_spec in Hsub.
  revert v y. induction depth as [|depth IH]; intros v y Hread.
  - by destruct v.
  - destruct v as [| | | | |l]; try done. cbn [Heap.snapshot] in *.
    destruct (h !! l) as [obj|] eqn:Hl; [|done].
    rewrite (Hsub _ _ Hl). destruct obj as [entries|items].
    + case_bool_decide as Hall; [|done].
      assert (Heq : Heap.snapshot depth h' <$> entries
                    = Heap.snapshot depth h <$> entries).
      { apply map_eq. intros k. rewrite !lookup_fmap.
        destruct (entries !! k) as [w|] eqn:Hk; [|done]. cbn.
        destruct (Hall k (Heap.snapshot depth h w)) as [z Hz].
        { by rewrite lookup_fmap, Hk. }
        rewrite Hz. f_equal. by apply IH. }
      rewrite Heq. by rewrite bool_decide_true.
    + destruct (mapM (Heap.snapshot depth h) items) as [ys|] eqn:Hitems; [|done].
      apply mapM_Some in Hitems.
      assert (Hitems' : mapM (Heap.snapshot depth h') items = Some ys).
      { apply mapM_Some. eapply Forall2_impl; [done|]. intros ??; apply IH. }
      by rewrite Hitems'.
Qed.

Lemma heap_merge_example :
  Heap.deep_merge 2 Heap.heap_example 0 1 = Some (Heap.heap_merged, 4).
Proof. vm_compute. reflexivity. Qed.

(** ** The merger on the heap computes the merger on documents *)

Lemma omap_id_Some {A} (M : gmap string A) : omap id (Some <$> M) = M.
Proof.
  apply map_eq. intros k. rewrite lookup_omap, lookup_fmap. by destruct (M !! k).
Qed.

Lemma all_Some_fmap {A} (R : gmap string (option A)) :
  map_Forall (fun _ o => is_Some o) R -> R = Some <$> omap id R.
Proof.
  intros Hall. apply map_eq. intros k. rewrite lookup_fmap, lookup_omap.
  destruct (R !! k) as [o|] eqn:Hk; [|done].
  destruct (Hall k o Hk) as [x ->]. done.
Qed.

Lemma fmap_Some_all {A} (M : gmap string A) :
  map_Forall (fun _ (o : option A) => is_Some o) (Some <$> M).
Proof.
  intros k o. rewrite lookup_fmap. destruct (M !! k); [|done].
  intros [= <-]. by eexists.
Qed.

Lemma snapshot_dict depth (h : gmap nat Heap.object) l entries M :
  h !! l = Some (Heap.ODict entries) ->
  Heap.snapshot (S depth) h (Heap.HRef l) = Some (VDict M) <->
  Heap.reads depth h entries M.
Proof.
  intros Hl. cbn [Heap.snapshot]. rewrite Hl. unfold Heap.reads. split.
  - case_bool_decide as Hall; [|done]. intros [= <-]. by apply all_Some_fmap.
  - intros ->. rewrite bool_decide_true by apply fmap_Some_all.
    by rewrite omap_id_Some.
Qed.

Lemma snapshot_dict_inv depth (h : gmap nat Heap.object) l M :
  Heap.snapshot depth h (Heap.HRef l) = Some (VDict M) ->
  exists depth' entries,
    depth = S depth' /\ h !! l = Some (Heap.ODict entries) /\
    Heap.reads depth' h entries M.
Proof.
  destruct depth as [|depth']; [done|]. intros Hread.
  pose proof Hread as Hread'. cbn [Heap.snapshot] in Hread'.
  destruct (h !! l) as [[entries|items]|] eqn:Hl; try done.
  - exists depth', entries. split; [done|]. split; [done|].
    by apply (snapshot_dict _ _ _ _ _ Hl).
  - by destruct (mapM _ _).
Qed.

Lemma reads_mono depth (g g' : gmap nat Heap.object) entries M :
  g ⊆ g' -> Heap.reads depth g entries M -> Heap.reads depth g' entries M.
Proof.
  unfold Heap.reads. intros Hsub Hread. rewrite <- Hread.
  apply map_eq. intros k. rewrite !lookup_fmap.
  destruct (entries !! k) as [v|] eqn:Hk; [|done]. cbn. f_equal.
  assert (Hv : (Heap.snapshot depth g <$> entries) !! k = (Some <$> M) !! k)
    by (by rewrite Hread).
  rewrite !lookup_fmap, Hk in Hv. cbn in Hv.
  destruct (M !! k) as [y|]; [|done]. injection Hv as Hv.
  rewrite Hv. by eapply snapshot_mono.
Qed.

Lemma reads_lookup depth (g : gmap nat Heap.object) entries M k :
  Heap.reads depth g entries M ->
  match entries !! k with
  | Some v => exists y, Heap.snapshot depth g v = Some y /\ M !! k = Some y
  | None => M !! k = None
  end.
Proof.
  unfold Heap.reads. intros Hread.
  assert (Hk : (Heap.snapshot depth g <$> entries) !! k = (Some <$> M) !! k)
    by (by rewrite Hread).
  rewrite !lookup_fmap in Hk.
  destruct (entries !! k) as [v|]; destruct (M !! k) as [y|]; try done.
  injection Hk as Hk. by exists y.
Qed.

Lemma reads_insert depth (g : gmap nat Heap.object) entries M k v y :
  Heap.reads depth g entries M -> Heap.snapshot depth g v = Some y ->
  Heap.reads depth g (<[k := v]> entries) (<[k := y]> M).
Proof.
  unfold Heap.reads. intros Hread Hv. by rewrite !fmap_insert, Hread, Hv.
Qed.

(** What [isinstance(v, dict)] answers on a value that reads as [y]. *)
Lemma dict_at_snapshot depth (g h : gmap nat Heap.object) v y :
  g ⊆ h -> Heap.snapshot depth g v = Some y ->
  match Heap.dict_at h v with
  | Some l => v = Heap.HRef l /\ exists M, y = VDict M
  | None => is_dict y = false
  end.
Proof.
  intros Hsub Hread. rewrite map_subseteq_spec in Hsub.
  destruct v as [| | | | |l];
    try (by destruct depth; cbn in Hread; injection Hread as <-).
  destruct depth as [|depth]; [done|]. cbn [Heap.snapshot Heap.dict_at] in *.
  destruct (g !! l) as [obj|] eqn:Hl; [|done]. rewrite (Hsub _ _ Hl).
  destruct obj as [entries|items].
  - split; [done|]. case_bool_decide; [|done]. injection Hread as <-. by eexists.
  - destruct (mapM _ _); [|done]. by injection Hread as <-.
Qed.

Lemma deep_merge_insert (base overlay : gmap string yvalue) i y :
  overlay !! i = None ->
  deep_merge base (<[i := y]> overlay) = merge_item i y (deep_merge base overlay).
Proof.
  intros Hi. apply map_eq. intros k.
  rewrite merge_item_lookup, !deep_merge_lookup, lookup_insert.
  case_decide as Hk; [|done]. subst k. by rewrite Hi.
Qed.

Lemma merge_item_plain i y (R : gmap string yvalue) :
  is_dict y = false \/ (forall sub, R !! i <> Some (VDict sub)) ->
  merge_item i y R = <[i := y]> R.
Proof.
  unfold merge_item. intros [Hy|HR].
  - destruct (R !! i) as [[]|]; by destruct y.
  - destruct (R !! i) as [[]|]; try done. by edestruct HR.
Qed.

Lemma merge_item_refines depth rec r i x y
    (hacc gacc : gmap nat Heap.object) re (R : gmap string yvalue) :
  refines depth rec ->
  gacc ⊆ hacc -> gacc !! r = None ->
  hacc !! r = Some (Heap.ODict re) ->
  Heap.reads depth gacc re R ->
  Heap.snapshot depth gacc x = Some y ->
  exists hacc' gacc' re',
    Heap.merge_item rec r i x hacc = Some hacc' /\
    gacc ⊆ gacc' /\ gacc' ⊆ hacc' /\ gacc' !! r = None /\
    (forall l, is_Some (gacc' !! l) -> is_Some (hacc !! l) -> is_Some (gacc !! l)) /\
    (forall l, is_Some (hacc !! l) -> is_Some (hacc' !! l)) /\
    hacc' !! r = Some (Heap.ODict re') /\
    Heap.reads depth gacc' re' (merge_item i y R).
Proof.
  intros Hrec Hsub Hgr Hr Hreads Hx.
  assert (Hplain : is_dict y = false \/ (forall sub, R !! i <> Some (VDict sub)) ->
            Heap.merge_item rec r i x hacc = Some (Heap.setitem r i x hacc) ->
            exists hacc' gacc' re',
              Heap.merge_item rec r i x hacc = Some hacc' /\
              gacc ⊆ gacc' /\ gacc' ⊆ hacc' /\ gacc' !! r = None /\
              (forall l, is_Some (gacc' !! l) -> is_Some (hacc !! l) ->
                         is_Some (gacc !! l)) /\
              (forall l, is_Some (hacc !! l) -> is_Some (hacc' !! l)) /\
              hacc' !! r = Some (Heap.ODict re') /\
              Heap.reads depth gacc' re' (merge_item i y R)).
  { intros Hpure Hstep. exists (Heap.setitem r i x hacc), gacc, (<[i := x]> re).
    split; [done|]. split; [done|]. split.
    { apply map_subseteq_spec. intros l o Ho.
      rewrite setitem_lookup_ne by (intros ->; by rewrite Hgr in Ho).
      by eapply lookup_weaken. }
    split; [done|]. split; [done|]. split.
    { intros l Hl. destruct (decide (l = r)) as [->|Hne].
      - erewrite setitem_lookup_dict by done. by eexists.
      - by rewrite setitem_lookup_ne. }
    split; [by apply setitem_lookup_dict|].
    rewrite merge_item_plain by done. by apply reads_insert. }
  pose proof (reads_lookup _ _ _ _ i Hreads) as Hi.
  pose proof (dict_at_snapshot _ _ _ _ _ Hsub Hx) as Hdx.
  unfold Heap.merge_item in *. rewrite Hr in *.
  destruct (re !! i) as [v|] eqn:Hv; cbn [mbind option_bind] in *.
  2:{ apply Hplain; [|done]. right. intros sub. by rewrite Hi. }
  destruct Hi as (a & Ha & HRi).
  pose proof (dict_at_snapshot _ _ _ _ _ Hsub Ha) as Hdv.
  destruct (Heap.dict_at hacc v) as [sub|].
  2:{ apply Hplain; [|done]. right. intros sub. rewrite HRi. intros [= ->]. done. }
  destruct (Heap.dict_at hacc x) as [over|].
  2:{ apply Hplain; [by left|done]. }
  destruct Hdv as [-> [As ->]]. destruct Hdx as [-> [Bs ->]].
  destruct (Hrec hacc gacc sub over As Bs Hsub Ha Hx)
    as (h2 & merged & g2 & Hcall & Hg & Hg2 & Hh2 & Hnew & Hmerged).
  rewrite Hcall.
  assert (Hg2r : g2 !! r = None).
  { destruct (g2 !! r) as [obj|] eqn:E; [|done].
    destruct (Hnew r) as [obj' Ho]; [by eexists|by eexists|]. by rewrite Hgr in Ho. }
  exists (Heap.setitem r i (Heap.HRef merged) h2), g2, (<[i := Heap.HRef merged]> re).
  split; [done|]. split; [done|]. split.
  { apply map_subseteq_spec. intros l o Ho.
    rewrite setitem_lookup_ne by (intros ->; by rewrite Hg2r in Ho).
    by eapply lookup_weaken. }
  split; [done|]. split; [done|]. split.
  { intros l [o Hl]. destruct (decide (l = r)) as [->|Hne].
    - erewrite setitem_lookup_dict by (by eapply lookup_weaken). by eexists.
    - rewrite setitem_lookup_ne by done. exists o. by eapply lookup_weaken. }
  split; [apply setitem_lookup_dict; by eapply lookup_weaken|].
  unfold merge_item. rewrite HRi.
  apply reads_insert; [by eapply reads_mono|done].
Qed.

Lemma reads_empty_inv depth (g : gmap nat Heap.object) (M : gmap string yvalue) :
  Heap.reads depth g ∅ M -> M = ∅.
Proof.
  unfold Heap.reads. rewrite fmap_empty. intros H. symmetry in H.
  by apply fmap_empty_inv in H.
Qed.

Lemma reads_insert_inv depth (g : gmap nat Heap.object) m i x (M : gmap string yvalue) :
  m !! i = None -> Heap.reads depth g (<[i := x]> m) M ->
  exists y, Heap.snapshot depth g x = Some y /\
            M = <[i := y]> (delete i M) /\
            Heap.reads depth g m (delete i M).
Proof.
  intros Hi Hreads.
  pose proof (reads_lookup _ _ _ _ i Hreads) as Hy.
  rewrite lookup_insert_eq in Hy. destruct Hy as (y & Hx & HM).
  exists y. split; [done|]. split; [by rewrite insert_delete_id|].
  unfold Heap.reads in *.
  rewrite fmap_delete, <- Hreads, <- fmap_delete. by rewrite delete_insert_id.
Qed.

Lemma heap_deep_merge_refines depth : refines depth (Heap.deep_merge depth).
Proof.
  induction depth as [|d IH]; intros h g base overlay A B Hsub HA HB; [done|].
  apply snapshot_dict_inv in HA as (d1 & be & [= <-] & Hbase & HreadA).
  apply snapshot_dict_inv in HB as (d2 & oe & [= <-] & Hover & HreadB).
  cbn [Heap.deep_merge].
  rewrite (lookup_weaken _ _ _ _ Hbase Hsub), (lookup_weaken _ _ _ _ Hover Hsub).
  cbn zeta. set (r := fresh (dom h)).
  assert (Hr : h !! r = None) by apply not_elem_of_dom, is_fresh.
  assert (Hgr : g !! r = None).
  { destruct (g !! r) as [obj|] eqn:E; [|done].
    by rewrite (lookup_weaken _ _ _ _ E Hsub) in Hr. }
  assert (Hloop : forall Bm,
             Heap.reads d g oe Bm ->
             exists hacc gacc re,
               map_fold
                 (fun key value acc =>
                    acc ≫= Heap.merge_item (Heap.deep_merge d) r key value)
                 (Some (<[r := Heap.ODict be]> h)) oe = Some hacc /\
               g ⊆ gacc /\ gacc ⊆ hacc /\ gacc !! r = None /\
               (forall l, is_Some (gacc !! l) -> is_Some (h !! l) -> is_Some (g !! l)) /\
               (forall l, is_Some (h !! l) -> is_Some (hacc !! l)) /\
               hacc !! r = Some (Heap.ODict re) /\
               Heap.reads d gacc re (deep_merge A Bm)).
  { apply (map_fold_weak_ind
             (fun acc (m : gmap string Heap.hvalue) =>
                forall Bm,
                  Heap.reads d g m Bm ->
                  exists hacc gacc re,
                    acc = Some hacc /\
                    g ⊆ gacc /\ gacc ⊆ hacc /\ gacc !! r = None /\
                    (forall l, is_Some (gacc !! l) -> is_Some (h !! l) ->
                               is_Some (g !! l)) /\
                    (forall l, is_Some (h !! l) -> is_Some (hacc !! l)) /\
                    hacc !! r = Some (Heap.ODict re) /\
                    Heap.reads d gacc re (deep_merge A Bm))).
    - intros Bm ->%reads_empty_inv.
      exists (<[r := Heap.ODict be]> h), g, be.
      split; [done|]. split; [done|].
      split; [by apply insert_subseteq_r|]. split; [done|]. split; [done|]. split.
      { intros l [o Hl]. exists o. rewrite lookup_insert_ne; [done|].
        intros <-. by rewrite Hr in Hl. }
      split; [apply lookup_insert_eq|]. by rewrite deep_merge_empty_r.
    - intros i x m acc Hi IHloop Bm' Hreads'.
      destruct (reads_insert_inv _ _ _ _ _ _ Hi Hreads') as (y & Hx & HBm & Hreads).
      destruct (IHloop _ Hreads)
        as (hacc & gacc & re & -> & Hg & Hgh & Hgaccr & Hold & Hdom & Hre & HR).
      cbn [mbind option_bind].
      destruct (merge_item_refines d (Heap.deep_merge d) r i x y hacc gacc re _
                  IH Hgh Hgaccr Hre HR (snapshot_mono _ _ _ _ _ Hg Hx))
        as (hacc' & gacc' & re' & Hstep & Hg' & Hgh' & Hgr' & Hnew & Hdom' & Hre' & HR').
      exists hacc', gacc', re'.
      split; [done|]. split; [by etrans|]. split; [done|]. split; [done|]. split.
      { intros l Hl Hh. apply Hold; [|done]. apply Hnew; [done|]. by apply Hdom. }
      split; [intros l Hl; by apply Hdom', Hdom|]. split; [done|].
      rewrite HBm, deep_merge_insert by apply lookup_delete_eq. done. }
  destruct (Hloop B HreadB)
    as (hacc & gacc & re & Hfold & Hg & Hgh & Hgaccr & Hold & Hdom & Hre & HR).
  assert (Hrun : Heap.deep_merge (S d) h base overlay = Some (hacc, r)).
  { cbn [Heap.deep_merge].
    rewrite (lookup_weaken _ _ _ _ Hbase Hsub), (lookup_weaken _ _ _ _ Hover Hsub).
    cbn zeta. fold r. by rewrite Hfold. }
  rewrite Hfold.
  exists hacc, r, (<[r := Heap.ODict re]> gacc).
  split; [done|].
  split; [by apply insert_subseteq_r|].
  split; [by apply insert_subseteq_l|].
  split; [by apply heap_deep_merge_frame in Hrun as [? _]|].
  split.
  { intros l Hl Hh. destruct (decide (l = r)) as [->|Hne].
    - rewrite Hr in Hh. by destruct Hh.
    - rewrite lookup_insert_ne in Hl by done. by apply Hold. }
  apply (snapshot_dict _ _ _ re); [apply lookup_insert_eq|].
  eapply reads_mono; [|done]. by apply insert_subseteq.
Qed.

(** C6: [deep_merge] writes to no object that exists when it is called: the
    dict it returns is at a new location, every object of the heap before
    the call, the two inputs and all that they reach among them, is the
    same object after it, and so every document that could be read from
    the heap before the call is read unchanged after it, to every depth.
    The nested calls are calls of the same function on the heap of that
    moment, so the same holds of them.  And on two locations that read as
    the documents [A] and [B] the call does return: its result reads as
    the merge of [A] and [B], and the inputs read as [A] and [B] still. *)
Theorem deep_merge_no_mutation :
  (forall fuel (h h' : gmap nat Heap.object) base overlay result,
      Heap.deep_merge fuel h base overlay = Some (h', result) ->
      h !! result = None /\
      (exists entries, h' !! result = Some (Heap.ODict entries)) /\
      (forall l o, h !! l = Some o -> h' !! l = Some o) /\
      (forall depth v y,
          Heap.snapshot depth h v = Some y -> Heap.snapshot depth h' v = Some y)) /\
  (forall depth (h : gmap nat Heap.object) base overlay A B,
      Heap.snapshot depth h (Heap.HRef base) = Some (VDict A) ->
      Heap.snapshot depth h (Heap.HRef overlay) = Some (VDict B) ->
      exists h' result,
        Heap.deep_merge depth h base overlay = Some (h', result) /\
        Heap.snapshot depth h' (Heap.HRef result) = Some (VDict (deep_merge A B)) /\
        Heap.snapshot depth h' (Heap.HRef base) = Some (VDict A) /\
        Heap.snapshot depth h' (Heap.HRef overlay) = Some (VDict B)).
Proof.
  split.
  - intros fuel h h' base overlay result Hrun.
    apply heap_deep_merge_frame in Hrun as (Hsub & Hnew & Hdict).
    split; [done|]. split; [done|]. split; [by apply map_subseteq_spec|].
    intros depth v y. by apply snapshot_mono.
  - intros depth h base overlay A B HA HB.
    destruct (heap_deep_merge_refines depth h h base overlay A B) as
      (h' & result & g' & Hrun & _ & Hg' & Hsub & _ & Hresult); [done..|].
    exists h', result. split; [done|].
    split; [exact (snapshot_mono _ _ _ _ _ Hg' Hresult)|].
    split; [exact (snapshot_mono _ _ _ _ _ Hsub HA)|].
    exact (snapshot_mono _ _ _ _ _ Hsub HB).
Qed.

Lemma deep_merge_no_mutation_example :
  Heap.deep_merge 2 Heap.heap_example 0 1 = Some (Heap.heap_merged, 4) /\
  Heap.heap_example !! 4 = None /\
  Heap.heap_merged !! 0 = Some (Heap.ODict {[ "a" := Heap.HInt 1; "b" := Heap.HRef 2 ]}) /\
  Heap.snapshot 2 Heap.heap_merged (Heap.HRef 0)
    = Some (VDict {[ "a" := VInt 1; "b" := VDict {[ "c" := VInt 2 ]} ]}) /\
  exists h' result,
    Heap.deep_merge 2 Heap.heap_example 0 1 = Some (h', result) /\
    Heap.snapshot 2 h' (Heap.HRef result)
      = Some (VDict (deep_merge {[ "a" := VInt 1; "b" := VDict {[ "c" := VInt 2 ]} ]}
                                {[ "b" := VDict {[ "d" := VInt 3 ]}; "e" := VInt 4 ]})).
Proof.
  split; [exact heap_merge_example|].
  destruct deep_merge_no_mutation as [Hframe Hrefine].
  destruct (Hframe 2 Heap.heap_example Heap.heap_merged 0 1 4 heap_merge_example)
    as (Hnew & _ & Hsame & Hread).
  split; [exact Hnew|]. split; [apply Hsame; reflexivity|].
  split; [apply Hread; vm_compute; reflexivity|].
  destruct (Hrefine 2 Heap.heap_example 0 1
              {[ "a" := VInt 1; "b" := VDict {[ "c" := VInt 2 ]} ]}
              {[ "b" := VDict {[ "d" := VInt 3 ]}; "e" := VInt 4 ]})
    as (h' & result & Hrun & Hresult & _).
  - vm_compute. reflexivity.
  - vm_compute. reflexivity.
  - by exists h', result.
Defined.

(** * Further properties of the code *)

(** ** Algebra of the merger *)

Lemma nesting_lookup (d : gmap string yvalue) k v :
  d !! k = Some v -> nesting v < nesting (VDict d).
Proof.
  intros Hk. cbn [nesting].
  rewrite (map_fold_delete_L _ _ k v d); [lia| |done].
  intros. lia.
Qed.

(** Induction on mappings along the mappings nested in them. *)
Lemma nested_ind (P : gmap string yvalue -> Prop) :
  (forall d, (forall k sub, d !! k = Some (VDict sub) -> P sub) -> P d) ->
  forall d, P d.
Proof.
  intros Hstep d. remember (nesting (VDict d)) as n eqn:Hn.
  revert d Hn. induction n as [n IH] using lt_wf_ind. intros d ->.
  apply Hstep. intros k sub Hk. eapply IH; [|done].
  by eapply nesting_lookup.
Qed.

Lemma deep_merge_idem (X : gmap string yvalue) : deep_merge X X = X.
Proof.
  induction X as [X IH] using nested_ind.
  apply map_eq. intros k. rewrite deep_merge_lookup.
  destruct (X !! k) as [v|] eqn:Hk; [|done].
  destruct v; try done. cbn [merged_entry]. by rewrite (IH k d Hk).
Qed.

Lemma deep_merge_absorb (A B : gmap string yvalue) :
  deep_merge (deep_merge A B) B = deep_merge A B.
Proof.
  revert A. induction B as [B IH] using nested_ind. intros A.
  apply map_eq. intros k. rewrite !deep_merge_lookup.
  destruct (B !! k) as [v|] eqn:Hk; [|done].
  destruct v as [| | | | | |over]; try done.
  destruct (A !! k) as [[| | | | | |sub]|]; cbn [merged_entry];
    try by rewrite deep_merge_idem.
  by rewrite (IH k over Hk).
Qed.

(** X1: merging a document over itself gives the document, and merging the
    same overlay a second time changes nothing. *)
Theorem deep_merge_idempotent (A B : gmap string yvalue) :
  deep_merge A A = A /\
  deep_merge (deep_merge A B) B = deep_merge A B.
Proof. split; [apply deep_merge_idem | apply deep_merge_absorb]. Qed.

Lemma keeps_mappings_inv base overlay k sub v :
  keeps_mappings base overlay ->
  base !! k = Some (VDict sub) -> overlay !! k = Some v ->
  exists over, v = VDict over /\ keeps_mappings sub over.
Proof. intros H. inversion H as [? ? Hkeep]; subst. apply Hkeep. Qed.

Lemma deep_merge_assoc (A B C : gmap string yvalue) :
  keeps_mappings A B ->
  deep_merge (deep_merge A B) C = deep_merge A (deep_merge B C).
Proof.
  revert A B. induction C as [C IH] using nested_ind. intros A B Hkeep.
  apply map_eq. intros k. rewrite !deep_merge_lookup.
  destruct (C !! k) as [c|] eqn:Hc.
  2:{ by destruct (B !! k) as [[]|]. }
  destruct (is_dict c) eqn:Hdc.
  2:{ by rewrite !merged_entry_plain by done. }
  destruct c as [| | | | | |over]; try done.
  destruct (B !! k) as [b|] eqn:Hb.
  2:{ rewrite !merged_entry_None_l. by destruct (A !! k) as [[]|]. }
  destruct (A !! k) as [a|] eqn:Ha.
  2:{ rewrite !merged_entry_None_l. by destruct b. }
  destruct a as [| | | | | |sub];
    try (by destruct b; cbn [merged_entry]).
  destruct (keeps_mappings_inv _ _ _ _ _ Hkeep Ha Hb) as (mid & -> & Hsub).
  cbn [merged_entry]. by rewrite (IH k over Hc).
Qed.

(** X2: merging is associative as long as the middle document puts no plain
    value where the first holds a mapping; without that the grouping
    matters, as it does for a number between two mappings. *)
Theorem deep_merge_associative :
  (forall A B C : gmap string yvalue,
      keeps_mappings A B ->
      deep_merge (deep_merge A B) C = deep_merge A (deep_merge B C)) /\
  deep_merge (deep_merge {[ "k" := VDict {[ "x" := VInt 1 ]} ]} {[ "k" := VInt 5 ]})
             {[ "k" := VDict {[ "y" := VInt 2 ]} ]}
  <> deep_merge {[ "k" := VDict {[ "x" := VInt 1 ]} ]}
                (deep_merge {[ "k" := VInt 5 ]} {[ "k" := VDict {[ "y" := VInt 2 ]} ]}).
Proof.
  split; [apply deep_merge_assoc|].
  intros Heq.
  assert (Hk : deep_merge
                 (deep_merge {[ "k" := VDict {[ "x" := VInt 1 ]} ]} {[ "k" := VInt 5 ]})
                 {[ "k" := VDict {[ "y" := VInt 2 ]} ]} !! "k"
               = Some (VDict {[ "y" := VInt 2 ]})) by (vm_compute; reflexivity).
  rewrite Heq in Hk. vm_compute in Hk. discriminate Hk.
Qed.

Lemma keeps_mappings_flat :
  keeps_mappings {[ "a" := VInt 1 ]} {[ "a" := VStr "s"; "b" := VDict ∅ ]}.
Proof.
  constructor. intros k sub v Hk _.
  destruct (decide (k = "a")) as [->|Hne]; [done|].
  by rewrite lookup_singleton_ne in Hk.
Qed.

Lemma deep_merge_associative_flat :
  deep_merge (deep_merge {[ "a" := VInt 1 ]} {[ "a" := VStr "s"; "b" := VDict ∅ ]})
             {[ "b" := VDict {[ "c" := VNull ]} ]}
  = deep_merge {[ "a" := VInt 1 ]}
               (deep_merge {[ "a" := VStr "s"; "b" := VDict ∅ ]}
                           {[ "b" := VDict {[ "c" := VNull ]} ]}).
Proof.
  exact (proj1 deep_merge_associative _ _ _ keeps_mappings_flat).
Defined.

Lemma deep_merge_union (A B : gmap string yvalue) :
  (forall k sub over, A !! k = Some (VDict sub) -> B !! k = Some (VDict over) -> False) ->
  deep_merge A B = B ∪ A.
Proof.
  intros Hflat. apply map_eq. intros k.
  rewrite deep_merge_lookup, lookup_union.
  destruct (B !! k) as [b|] eqn:Hb; [|by destruct (A !! k)].
  destruct (is_dict b) eqn:Hdb.
  - destruct b as [| | | | | |over]; try done.
    rewrite merged_entry_over_plain; [by destruct (A !! k)|].
    intros sub Ha. by eapply Hflat.
  - rewrite merged_entry_plain by done. by destruct (A !! k).
Qed.

(** X3: when no key holds a mapping on both sides the merge is the plain
    update of the base by the overlay, entry by entry; and two documents
    with no key in common merge to the same document in either order. *)
Theorem deep_merge_shallow (A B : gmap string yvalue) :
  ((forall k sub over,
       A !! k = Some (VDict sub) -> B !! k = Some (VDict over) -> False) ->
   deep_merge A B = B ∪ A) /\
  (A ##ₘ B -> deep_merge A B = deep_merge B A).
Proof.
  split; [apply deep_merge_union|].
  intros Hdisj.
  rewrite !deep_merge_union.
  - by apply map_union_comm.
  - intros k sub over Hb Ha. by apply (map_disjoint_spec A B) with k (VDict over) (VDict sub).
  - intros k sub over Ha Hb. by apply (map_disjoint_spec A B) with k (VDict sub) (VDict over).
Qed.

Lemma deep_merge_shallow_example :
  deep_merge {[ "a" := VInt 1; "b" := VList [VInt 1] ]} {[ "b" := VList []; "c" := VNull ]}
    = {[ "b" := VList []; "c" := VNull ]} ∪ {[ "a" := VInt 1; "b" := VList [VInt 1] ]} /\
  deep_merge {[ "a" := VDict ∅ ]} {[ "c" := VDict ∅ ]}
    = deep_merge {[ "c" := VDict ∅ ]} {[ "a" := VDict ∅ ]}.
Proof.
  split.
  - apply (proj1 (deep_merge_shallow _ _)).
    intros k sub over Ha Hb.
    destruct (decide (k = "a")) as [->|Hna]; [done|].
    destruct (decide (k = "b")) as [->|Hnb]; [done|].
    by rewrite lookup_insert_ne, lookup_singleton_ne in Ha.
  - apply (proj2 (deep_merge_shallow _ _)).
    by apply map_disjoint_singleton_l_2.
Defined.

(** ** The validator and the merger together *)

Lemma lookup_path_deep_merge_Some (base overlay : gmap string yvalue) parts :
  is_Some (lookup_path (VDict overlay) parts) ->
  is_Some (lookup_path (VDict (deep_merge base overlay)) parts).
Proof.
  intros [v Hv]. rewrite (deep_merge_lookup_path _ _ _ _ Hv).
  apply merged_entry_is_Some. right. by eexists.
Qed.

(** X4: a path that the validator finds in a document is found in every
    merge of that document over a base; so the required keys that are
    reported missing after the merge were missing from the overlay alone,
    and a list of required keys that the overlay satisfies is satisfied
    after the merge. *)
Theorem required_keys_survive_merge (base overlay : gmap string yvalue)
    (required_keys : list string) (config_path : string) :
  (forall parts,
      path_breaks (VDict overlay) parts = false ->
      path_breaks (VDict (deep_merge base overlay)) parts = false) /\
  (forall key_path,
      key_path ∈ collect_missing (deep_merge base overlay) required_keys ->
      key_path ∈ collect_missing overlay required_keys) /\
  (_validate_required_keys overlay required_keys config_path = Return tt ->
   _validate_required_keys (deep_merge base overlay) required_keys config_path
     = Return tt).
Proof.
  assert (Hfound : forall parts,
             path_breaks (VDict overlay) parts = false ->
             path_breaks (VDict (deep_merge base overlay)) parts = false).
  { intros parts. rewrite !path_breaks_found. apply lookup_path_deep_merge_Some. }
  assert (Hmissing : forall key_path,
             key_path ∈ collect_missing (deep_merge base overlay) required_keys ->
             key_path ∈ collect_missing overlay required_keys).
  { intros key_path. rewrite !collect_missing_filter, !list_elem_of_filter.
    intros [Hnone Hin]. split; [|done].
    apply path_breaks_lookup. apply path_breaks_lookup in Hnone.
    destruct (path_breaks (VDict overlay) _) eqn:Hb; [done|].
    apply Hfound in Hb. by rewrite Hb in Hnone. }
  split; [done|]. split; [done|].
  unfold _validate_required_keys.
  destruct (collect_missing overlay required_keys) as [|x l] eqn:Hov; [|done].
  intros _.
  destruct (collect_missing (deep_merge base overlay) required_keys) as [|y l'] eqn:Hm;
    [done|].
  assert (Hy : y ∈ @nil string) by (apply Hmissing; by left).
  by apply not_elem_of_nil in Hy.
Qed.

Lemma required_keys_survive_merge_example :
  path_breaks (VDict (deep_merge {[ "db" := VStr "x" ]}
                                 {[ "db" := VDict {[ "host" := VNull ]} ]}))
              ["db"; "host"] = false /\
  _validate_required_keys
    (deep_merge {[ "db" := VStr "x" ]} {[ "db" := VDict {[ "host" := VNull ]} ]})
    ["db.host"] "main.yaml" = Return tt.
Proof.
  destruct (required_keys_survive_merge
              {[ "db" := VStr "x" ]} {[ "db" := VDict {[ "host" := VNull ]} ]}
              ["db.host"] "main.yaml") as (Hpath & _ & Hvalid).
  split; [apply Hpath; reflexivity | apply Hvalid; reflexivity].
Defined.

(** ** Splitting a key path *)

Lemma split_on_nonempty sep s : split_on sep s <> [].
Proof.
  destruct s as [|c s]; [done|]. cbn.
  destruct (Ascii.eqb c sep); [done|]. by destruct (split_on sep s).
Qed.

Lemma join_cons_char sep c part parts :
  join sep (String c part :: parts) = String c (join sep (part :: parts)).
Proof. by destruct parts. Qed.

Lemma join_split_on sep s : join (String sep "") (split_on sep s) = s.
Proof.
  induction s as [|c s IH]; [done|]. cbn [split_on].
  destruct (Ascii.eqb c sep) eqn:Hc.
  - apply Ascii.eqb_eq in Hc as ->.
    pose proof (split_on_nonempty sep s) as Hne.
    destruct (split_on sep s) as [|part parts]; [done|].
    change (join (String sep "") ("" :: part :: parts))
      with ("" ++ String sep "" ++ join (String sep "") (part :: parts)).
    by rewrite IH.
  - pose proof (split_on_nonempty sep s) as Hne.
    destruct (split_on sep s) as [|part parts]; [done|].
    by rewrite join_cons_char, IH.
Qed.

Lemma split_on_parts_clean sep s part :
  part ∈ split_on sep s -> Forall (fun c => c <> sep) (list_ascii_of_string part).
Proof.
  revert part. induction s as [|c s IH]; intros part Hin.
  - apply list_elem_of_singleton in Hin as ->. constructor.
  - cbn [split_on] in Hin. destruct (Ascii.eqb c sep) eqn:Hc.
    + apply elem_of_cons in Hin as [->|Hin]; [constructor|by apply IH].
    + apply Ascii.eqb_neq in Hc.
      pose proof (split_on_nonempty sep s) as Hne.
      destruct (split_on sep s) as [|first rest]; [done|].
      apply elem_of_cons in Hin as [->|Hin].
      * cbn. constructor; [done|]. apply IH. by left.
      * apply IH. by right.
Qed.

Lemma split_on_clean sep s :
  Forall (fun c => c <> sep) (list_ascii_of_string s) -> split_on sep s = [s].
Proof.
  induction s as [|c s IH]; [done|]. cbn. intros Hall.
  inversion Hall as [|? ? Hc Hrest]; subst.
  apply Ascii.eqb_neq in Hc. rewrite Hc. by rewrite IH.
Qed.

(** X5: [split] and [join] are inverse on a key path: joining the segments
    with the separator gives the path back; there is always at least one
    segment, and no segment holds the separator. *)
Theorem split_join_round_trip (sep : ascii) (s : string) :
  join (String sep "") (split_on sep s) = s /\
  split_on sep s <> [] /\
  (forall part, part ∈ split_on sep s ->
                Forall (fun c => c <> sep) (list_ascii_of_string part)).
Proof.
  split; [apply join_split_on|]. split; [apply split_on_nonempty|].
  apply split_on_parts_clean.
Qed.

(** X6: a required key without a dot names a top-level key: it is reported
    missing exactly when it is listed and is not a key of the document,
    whatever value the document holds under it. *)
Theorem top_level_required_key (config : gmap string yvalue)
    (required_keys : list string) (key : string) :
  Forall (fun c => c <> "."%char) (list_ascii_of_string key) ->
  key ∈ collect_missing config required_keys <->
  key ∈ required_keys /\ config !! key = None.
Proof.
  intros Hclean. rewrite collect_missing_filter, list_elem_of_filter.
  rewrite (split_on_clean _ _ Hclean). cbn [lookup_path]. split.
  - intros [Hnone Hin]. split; [done|]. by destruct (config !! key).
  - intros [Hin Hnone]. split; [|done]. by rewrite Hnone.
Qed.

Lemma top_level_required_key_example :
  "api_key" ∈ collect_missing {[ "other_key" := VStr "value" ]} ["api_key"] <->
  "api_key" ∈ ["api_key"] /\
  ({[ "other_key" := VStr "value" ]} : gmap string yvalue) !! "api_key" = None.
Proof.
  apply top_level_required_key. vm_compute. repeat constructor; discriminate.
Defined.

(** ** What the result of the loader depends on *)

(** Two runs of the include loop, on nested calls that answer alike, answer
    alike.  [T] holds of the outcomes that carry over. *)
Lemma include_loop_transport (load1 load2 : string -> exec (gmap string yvalue))
    (T : outcome (gmap string yvalue) -> Prop) items (e2 : gmap string string) :
  (forall d, T (Return d)) ->
  (forall s e1 e1' o,
      VStr s ∈ items -> load1 s e1 = Some (e1', o) ->
      e1' = e1 /\ (T o -> load2 s e2 = Some (e2, o))) ->
  forall base_config e1 e1' o,
    include_loop load1 items base_config e1 = Some (e1', o) -> T o ->
    include_loop load2 items base_config e2 = Some (e2, o).
Proof.
  intros HTret. induction items as [|x items IH]; intros Hload base_config e1 e1' o.
  - cbn. by intros [= <- <-] _.
  - assert (Hrest : forall s e1 e1' o,
               VStr s ∈ items -> load1 s e1 = Some (e1', o) ->
               e1' = e1 /\ (T o -> load2 s e2 = Some (e2, o))).
    { intros s ? ? ? Hs. apply Hload. by right. }
    destruct x; try (cbn; by intros [= <- <-] _).
    cbn [include_loop]. intros Hrun HT.
    apply bind_Some in Hrun as [(e & Hc & ->)|(doc & e1'' & Hc & Hk)].
    + destruct (Hload s _ _ _ ltac:(by left) Hc) as [_ H2].
      unfold mbind, exec_bind. by rewrite (H2 HT).
    + destruct (Hload s _ _ _ ltac:(by left) Hc) as [-> H2].
      unfold mbind, exec_bind. rewrite (H2 (HTret doc)).
      by eapply IH.
Qed.

Section Transport.
Variable py_str : yvalue -> string.
Variable fs : filesystem.

Lemma try_block_transport (load1 load2 : string -> exec (gmap string yvalue))
    (T : outcome (gmap string yvalue) -> Prop) p (e2 : gmap string string) :
  (forall d, T (Return d)) ->
  (forall q e1 e1' o,
      edge fs p q -> load1 q e1 = Some (e1', o) ->
      e1' = e1 /\ (T o -> load2 q e2 = Some (e2, o))) ->
  forall e1 e1' o,
    try_block fs load1 p e1 = Some (e1', o) -> T o ->
    try_block fs load2 p e2 = Some (e2, o).
Proof.
  intros HTret Hload e1 e1' o Hrun HT.
  unfold try_block in *. unfold mbind at 1, exec_bind at 1, lift.
  apply bind_Some in Hrun. unfold lift in Hrun.
  unfold edge, includes_of in Hload.
  destruct (read_config fs p) as [config|e0] eqn:Hread.
  2:{ destruct Hrun as [(e & [= <- <-] & ->)|(? & ? & [=] & _)]. done. }
  destruct Hrun as [(e & [=] & _)|(a & e1'' & [= <- <-] & Hk)].
  destruct (config !! include_key) as [includes|] eqn:Hinc.
  2:{ by injection Hk as <- <-. }
  destruct (include_items includes) as [items|] eqn:Hitems.
  2:{ by injection Hk as <- <-. }
  apply bind_Some in Hk.
  assert (Hchild : forall s e1 e1' o,
             VStr s ∈ items ->
             load1 (parent_join fs p s) e1 = Some (e1', o) ->
             e1' = e1 /\ (T o -> load2 (parent_join fs p s) e2 = Some (e2, o))).
  { intros s ? ? o' Hs Hl.
    by apply (Hload (parent_join fs p s) _ _ _ ltac:(by exists items, s) Hl). }
  pose proof (include_loop_transport
                (fun include_path => load1 (parent_join fs p include_path))
                (fun include_path => load2 (parent_join fs p include_path))
                T items e2 HTret) as Hloop.
  unfold mbind, exec_bind.
  destruct Hk as [(e & Hc & ->)|(base_config & e1'' & Hc & Hk)].
  - by rewrite (Hloop Hchild _ _ _ _ Hc HT).
  - rewrite (Hloop Hchild _ _ _ _ Hc (HTret base_config)).
    by injection Hk as <- <-.
Qed.





(** X8: a call from outside with [required_keys] is the call without them
    followed by the validation of what that call returns: the keys change
    neither the document nor what is written to the environment, which is
    seeded also when the validation raises. *)
Theorem required_keys_after_load (p : string) (keys : list string)
    (environ : gmap string string) :
  load py_str fs p (Some keys) environ =
    match load py_str fs p None environ with
    | Some (environ', Return d) =>
        Some (environ', match _validate_required_keys d keys p with
                        | Return _ => Return d
                        | Raise e => Raise e
                        end)
    | other => other
    end.
Proof.
  unfold load. rewrite !load_config_root by done.
  destruct (negb _); [done|].
  unfold mbind, exec_bind.
  destruct (try_block fs _ p environ) as [[environ1 [config|e]]|]; [|done|done].
  unfold root_post.
  destruct (config !! env_key) as [[]|]; try done;
    (destruct keys; [done|]); by destruct (_validate_required_keys _ _ _).
Qed.




(** X10: the document a nested call returns does not depend on the stack
    it is entered with.  Entered with another stack, one that holds no
    file reachable from [p] that the first stack did not hold, the call
    returns the same document: a file included along two branches is
    loaded to the same document on both. *)
Theorem document_ignores_stack (fuel : nat) (p : string)
    (required_keys required_keys2 : option (list string)) (stack stack2 : list string)
    (environ environ' environ2 : gmap string string) (d : gmap string yvalue) :
  stack <> [] -> stack2 <> [] ->
  (forall q, rtc (edge fs) p q -> resolve fs q ∈ stack2 -> resolve fs q ∈ stack) ->
  load_config py_str fs fuel p required_keys (Some stack) environ
    = Some (environ', Return d) ->
  load_config py_str fs fuel p required_keys2 (Some stack2) environ2
    = Some (environ2, Return d).
Proof.
  revert p required_keys required_keys2 stack stack2 environ environ' d.
  induction fuel as [|fuel IH];
    intros p required_keys required_keys2 stack stack2 environ environ' d
           Hstack Hstack2 Hsub Hrun; [done|].
  rewrite load_config_unfold in Hrun |- *. cbn [default from_option id] in Hrun |- *.
  destruct (negb _); [done|].
  cbn zeta in Hrun |- *. case_bool_decide as Hin; [done|].
  rewrite (bool_decide_false (resolve fs p ∈ stack2)).
  2:{ intros Hin2. apply Hin. by apply Hsub. }
  rewrite bool_decide_false in Hrun by done.
  rewrite bool_decide_false by done.
  apply bind_Some in Hrun.
  destruct Hrun as [(e & _ & [=])|(config & environ1 & Hc & [= <- <-])].
  pose proof (try_block_transport
                (fun q => load_config py_str fs fuel q None
                            (Some (stack ++ [resolve fs p])%list))
                (fun q => load_config py_str fs fuel q None
                            (Some (stack2 ++ [resolve fs p])%list))
                (fun o => exists d, o = Return d) p environ2
                (fun d => ex_intro _ d eq_refl)) as Htry.
  unfold mbind, exec_bind. rewrite (Htry) with (e1 := environ) (e1' := environ1) (o := Return config);
    [done| |done|by eexists].
  intros q e1 e1' o Hedge Hl.
  assert (Hne : (stack ++ [resolve fs p])%list <> []) by by destruct stack.
  split; [by apply load_config_nested in Hl as [-> _]|].
  intros [d' ->]. eapply IH; [done|by destruct stack2| |done].
  intros q' Hq'. rewrite !elem_of_app. intros [Hq2|Hq2]; [left|by right].
  apply Hsub; [|done]. by eapply rtc_l.
Qed.
End Transport.

Lemma document_ignores_stack_diamond :
  load_config str_of fs_diamond 1 "shared.yaml" None
    (Some ["/cfg/main.yaml"; "/cfg/left.yaml"]) ∅
    = Some (∅, Return {[ "shared" := VStr "value" ]}) /\
  load_config str_of fs_diamond 1 "shared.yaml" None
    (Some ["/cfg/main.yaml"; "/cfg/right.yaml"]) ∅
    = Some (∅, Return {[ "shared" := VStr "value" ]}).
Proof.
  assert (Hleft : load_config str_of fs_diamond 1 "shared.yaml" None
                    (Some ["/cfg/main.yaml"; "/cfg/left.yaml"]) ∅
                  = Some (∅, Return {[ "shared" := VStr "value" ]})).
  { vm_compute. reflexivity. }
  split; [exact Hleft|].
  apply (document_ignores_stack str_of fs_diamond 1 "shared.yaml" None None
           ["/cfg/main.yaml"; "/cfg/left.yaml"] ["/cfg/main.yaml"; "/cfg/right.yaml"]
           ∅ ∅ ∅ {[ "shared" := VStr "value" ]}); [done|done| |exact Hleft].
  intros q Hq.
  assert (Hself : q = "shared.yaml").
  { inversion Hq as [|? y ? (items & s & Hinc & Hs & _) _]; [done|].
    vm_compute in Hinc. injection Hinc as <-. by apply elem_of_nil in Hs. }
  subst q. change (resolve fs_diamond "shared.yaml") with "/cfg/shared.yaml".
  rewrite !elem_of_cons, elem_of_nil. by intros [?|[?|?]].
Defined.


(** ** What an exception says of the files *)



Section Blame.
Variable py_str : yvalue -> string.
Variable fs : filesystem.



End Blame.


(** ** The first include that fails *)




(** ** The merger on the heap: what the result shares with the inputs *)

Lemma result_entry_mono (h h1 h2 : gmap nat Heap.object) result b o e :
  (forall l obj, l <> result -> h1 !! l = Some obj -> h2 !! l = Some obj) ->
  result_entry h h1 result b o e -> result_entry h h2 result b o e.
Proof.
  intros Hsub. unfold result_entry.
  destruct o as [value|]; [|done].
  destruct (b ≫= Heap.dict_at h); [|done].
  destruct (Heap.dict_at h value); [|done].
  intros (merged & -> & Hne & Hnew & entries & Hm).
  exists merged. repeat (split; [done|]). exists entries. by apply Hsub.
Qed.

Lemma dict_at_frame (h h1 : gmap nat Heap.object) v :
  (forall l obj, h !! l = Some obj -> h1 !! l = Some obj) ->
  (forall l, v = Heap.HRef l -> is_Some (h !! l)) ->
  Heap.dict_at h1 v = Heap.dict_at h v.
Proof.
  intros Hsub Hv. destruct v as [| | | | |l]; try done. cbn.
  destruct (Hv l eq_refl) as [obj Hobj]. by rewrite Hobj, (Hsub _ _ Hobj).
Qed.

Lemma merge_loop_entries rec result (h : gmap nat Heap.object)
    (base_entries overlay_entries : gmap string Heap.hvalue) h' :
  (forall h0 a b h1 r,
      rec h0 a b = Some (h1, r) ->
      h0 ⊆ h1 /\ h0 !! r = None /\ exists e, h1 !! r = Some (Heap.ODict e)) ->
  h !! result = None ->
  (forall k l, base_entries !! k = Some (Heap.HRef l) -> is_Some (h !! l)) ->
  (forall k l, overlay_entries !! k = Some (Heap.HRef l) -> is_Some (h !! l)) ->
  map_fold (fun key value acc => acc ≫= Heap.merge_item rec result key value)
           (Some (<[result := Heap.ODict base_entries]> h)) overlay_entries = Some h' ->
  exists entries,
    h' !! result = Some (Heap.ODict entries) /\
    forall key,
      result_entry h h' result (base_entries !! key) (overlay_entries !! key)
                   (entries !! key).
Proof.
  intros Hrec Hfresh Hbase Hoverlay Hrun.
  cut ((forall l obj, h !! l = Some obj -> h' !! l = Some obj) /\
       exists entries,
         h' !! result = Some (Heap.ODict entries) /\
         forall key,
           result_entry h h' result (base_entries !! key) (overlay_entries !! key)
                        (entries !! key)); [by intros [_ ?]|].
  revert Hoverlay h' Hrun.
  apply (map_fold_weak_ind
           (fun acc (m : gmap string Heap.hvalue) =>
              (forall k l, m !! k = Some (Heap.HRef l) -> is_Some (h !! l)) ->
              forall h', acc = Some h' ->
                (forall l obj, h !! l = Some obj -> h' !! l = Some obj) /\
                exists entries,
                  h' !! result = Some (Heap.ODict entries) /\
                  forall key,
                    result_entry h h' result (base_entries !! key) (m !! key)
                                 (entries !! key))).
  - intros _ h' [= <-]. split.
    + intros l obj Hl. rewrite lookup_insert_ne; [done|]. intros <-. congruence.
    + exists base_entries. split; [apply lookup_insert_eq|].
      intros key. by rewrite lookup_empty.
  - intros key value m acc Hkey IH Hm h' Hstep.
    destruct acc as [h1|]; [|done]. cbn in Hstep.
    destruct (IH (fun k l Hk => Hm k l ltac:(
                    rewrite lookup_insert_ne; [done|]; intros <-; congruence))
                 h1 eq_refl) as (Hframe & entries & Hres & Hent).
    assert (Hek : entries !! key = base_entries !! key).
    { specialize (Hent key). by rewrite Hkey in Hent. }
    assert (Hsub_at : entries !! key ≫= Heap.dict_at h1
                      = base_entries !! key ≫= Heap.dict_at h).
    { rewrite Hek. destruct (base_entries !! key) as [v|] eqn:Hv; [|done]. cbn.
      apply dict_at_frame; [done|]. intros l ->. by eapply Hbase. }
    assert (Hover_at : Heap.dict_at h1 value = Heap.dict_at h value).
    { apply dict_at_frame; [done|]. intros l ->. apply (Hm key). apply lookup_insert_eq. }
    assert (Hput : forall h2 v,
               h1 ⊆ h2 ->
               result_entry h (Heap.setitem result key v h2) result
                            (base_entries !! key) (Some value) (Some v) ->
               (forall l obj, h !! l = Some obj ->
                              Heap.setitem result key v h2 !! l = Some obj) /\
               exists entries',
                 Heap.setitem result key v h2 !! result = Some (Heap.ODict entries') /\
                 forall k,
                   result_entry h (Heap.setitem result key v h2) result
                                (base_entries !! k) (<[key := value]> m !! k)
                                (entries' !! k)).
    { intros h2 v Hsub Hnew. rewrite map_subseteq_spec in Hsub. split.
      - intros l obj Hl. rewrite setitem_lookup_ne by (intros ->; congruence).
        by apply Hsub, Hframe.
      - exists (<[key := v]> entries).
        split; [by apply setitem_lookup_dict, Hsub|].
        intros k. destruct (decide (key = k)) as [<-|Hne].
        + by rewrite !lookup_insert_eq.
        + rewrite !lookup_insert_ne by done.
          eapply result_entry_mono; [|apply Hent].
          intros l obj Hl Hobj. rewrite setitem_lookup_ne by done. by apply Hsub. }
    unfold Heap.merge_item in Hstep. rewrite Hres, Hsub_at, Hover_at in Hstep.
    destruct (base_entries !! key ≫= Heap.dict_at h) as [sub|] eqn:Hsubd.
    2:{ injection Hstep as <-. apply Hput; [done|].
        unfold result_entry. by rewrite Hsubd. }
    destruct (Heap.dict_at h value) as [over|] eqn:Hoverd.
    2:{ injection Hstep as <-. apply Hput; [done|].
        unfold result_entry. by rewrite Hsubd, Hoverd. }
    destruct (rec h1 sub over) as [[h2 merged]|] eqn:Hcall; [|done].
    injection Hstep as <-.
    destruct (Hrec _ _ _ _ _ Hcall) as (Hsub & Hnone & e & He).
    apply Hput; [done|]. unfold result_entry. rewrite Hsubd, Hoverd.
    assert (Hne : merged <> result) by (intros ->; congruence).
    exists merged. split; [done|]. split; [done|]. split.
    + destruct (h !! merged) as [obj|] eqn:Hobj; [|done].
      apply Hframe in Hobj. congruence.
    + exists e. by rewrite setitem_lookup_ne.
Qed.

(** X13: the dict that [deep_merge] returns is a shallow copy.  Under a key
    that the overlay does not hold it holds the very value of the base, and
    under a key of the overlay the very value of the overlay, references to
    nested dicts and lists included, so that these objects are shared with
    the inputs; only where both inputs hold a dict does it hold a reference
    to a dict made by the call. *)
Theorem deep_merge_shares (fuel : nat) (h h' : gmap nat Heap.object)
    (base overlay result : nat) (base_entries overlay_entries : gmap string Heap.hvalue) :
  h !! base = Some (Heap.ODict base_entries) ->
  h !! overlay = Some (Heap.ODict overlay_entries) ->
  (forall k l, base_entries !! k = Some (Heap.HRef l) -> is_Some (h !! l)) ->
  (forall k l, overlay_entries !! k = Some (Heap.HRef l) -> is_Some (h !! l)) ->
  Heap.deep_merge fuel h base overlay = Some (h', result) ->
  exists entries,
    h' !! result = Some (Heap.ODict entries) /\
    forall key,
      result_entry h h' result (base_entries !! key) (overlay_entries !! key)
                   (entries !! key).
Proof.
  intros Hb Ho Hbase Hoverlay Hrun.
  destruct fuel as [|fuel]; [done|]. cbn [Heap.deep_merge] in Hrun.
  rewrite Hb, Ho in Hrun.
  destruct (map_fold _ _ _) as [h1|] eqn:Hloop; [|done].
  injection Hrun as <- <-.
  eapply merge_loop_entries; [| |done|done|exact Hloop].
  - intros h0 a b h2 r Hcall. by apply heap_deep_merge_frame in Hcall.
  - apply not_elem_of_dom, is_fresh.
Qed.

Lemma deep_merge_shares_example :
  exists entries,
    Heap.heap_merged !! 4 = Some (Heap.ODict entries) /\
    entries !! "a" = Some (Heap.HInt 1) /\
    entries !! "e" = Some (Heap.HInt 4) /\
    exists merged, entries !! "b" = Some (Heap.HRef merged) /\
                   Heap.heap_example !! merged = None.
Proof.
  destruct (deep_merge_shares 2 Heap.heap_example Heap.heap_merged 0 1 4
              {[ "a" := Heap.HInt 1; "b" := Heap.HRef 2 ]}
              {[ "b" := Heap.HRef 3; "e" := Heap.HInt 4 ]})
    as (entries & Hresult & Hkeys).
  - reflexivity.
  - reflexivity.
  - intros k l Hk.
    destruct (decide (k = "a")) as [->|?]; [done|].
    destruct (decide (k = "b")) as [->|?].
    + injection Hk as <-. by eexists.
    + by rewrite lookup_insert_ne, lookup_singleton_ne in Hk.
  - intros k l Hk.
    destruct (decide (k = "b")) as [->|?].
    + injection Hk as <-. by eexists.
    + destruct (decide (k = "e")) as [->|?]; [done|].
      by rewrite lookup_insert_ne, lookup_singleton_ne in Hk.
  - vm_compute. reflexivity.
  - exists entries. split; [done|].
    split; [exact (Hkeys "a")|]. split; [exact (Hkeys "e")|].
    destruct (Hkeys "b") as (merged & Hb & _ & Hnew & _).
    by exists merged.
Defined.

(** ** An empty file *)

Lemma collect_missing_empty required_keys : collect_missing ∅ required_keys = required_keys.
Proof.
  unfold collect_missing.
  assert (Hgen : forall missing,
             foldl (fun missing key_path =>
                      if path_breaks (VDict ∅) (split_on "."%char key_path)
                      then (missing ++ [key_path])%list else missing)
                   missing required_keys = (missing ++ required_keys)%list).
  { induction required_keys as [|key_path keys IH]; intros missing; cbn [foldl].
    - by rewrite app_nil_r.
    - pose proof (split_on_nonempty "."%char key_path) as Hparts.
      destruct (split_on "."%char key_path) as [|part parts]; [done|].
      cbn [path_breaks]. rewrite lookup_empty, IH. by rewrite <- app_assoc. }
  apply Hgen.
Qed.

(** X14: a file without content is loaded as the empty document, the
    environment left as it is; and when required keys are given, every one
    of them is reported missing, in the order given. *)
Theorem empty_file_loads (py_str : yvalue -> string) (fs : filesystem) (p : string)
    (required_keys : option (list string)) (environ : gmap string string) :
  files fs !! resolve fs p = Some (Parsed VNull) ->
  load py_str fs p required_keys environ =
    Some (environ,
          match required_keys with
          | Some (key :: keys) => Raise (MissingRequiredKeys p (key :: keys))
          | _ => Return ∅
          end).
Proof.
  intros Hfile. unfold load. rewrite load_config_root by done.
  unfold path_exists. rewrite bool_decide_true by (rewrite Hfile; by eexists).
  cbn [negb]. unfold try_block, lift, read_config. rewrite Hfile.
  unfold mbind at 1, exec_bind at 1. unfold mbind at 1, exec_bind at 1.
  rewrite lookup_empty. cbn.
  unfold root_post. rewrite lookup_empty.
  destruct required_keys as [[|key keys]|]; try done.
  unfold _validate_required_keys. by rewrite collect_missing_empty.
Qed.

Lemma empty_file_loads_example :
  load str_of fs_empty "empty.yaml" None ∅ = Some (∅, Return ∅) /\
  load str_of fs_empty "empty.yaml" (Some ["database.host"; "api_key"]) ∅
    = Some (∅, Raise (MissingRequiredKeys "empty.yaml" ["database.host"; "api_key"])).
Proof.
  split.
  - apply (empty_file_loads str_of fs_empty "empty.yaml" None ∅). reflexivity.
  - apply (empty_file_loads str_of fs_empty "empty.yaml"
             (Some ["database.host"; "api_key"]) ∅).
    reflexivity.
Defined.

Lemma split_join_round_trip_example :
  split_on "."%char "database.host" = ["database"; "host"] /\
  join "." (split_on "."%char "database.host") = "database.host" /\
  Forall (fun c => c <> "."%char) (list_ascii_of_string "database").
Proof.
  destruct (split_join_round_trip "."%char "database.host") as (Hjoin & _ & Hclean).
  split; [reflexivity|]. split; [exact Hjoin|].
  apply Hclean. left.
Defined.
